(** * Safe command server: tokenizer, validator and process runner

    A shallow embedding of [src/index.ts] (class [SafeCommandServer]):
    - [parseArgs]        the quote- and escape-aware word splitter,
    - [validateCommand]  the per-argument allow/deny check against the
                         whitelist of [AllowedCommand] records, with the
                         [RegExp] objects of the whitelist and their
                         [lastIndex],
    - [spawnAsync]       the event handlers that capture the child's output,
                         enforce the timer and settle the returned promise,
    - [parseRegex]       the reading of a pattern from a configuration text,
                         and the map of [readConfigFile] that applies it,
    - the tool handler   from the command line to the call of [spawnAsync].

    A string of the source is a sequence of code units; here it is a
    [string] of [ascii].  The scanner compares a code unit with seven ASCII
    characters only and the patterns of the table name ASCII characters
    only, so every other code unit takes the branch of an ordinary
    character. *)

From Stdlib Require Import Bool Arith Lia List Ascii String ZArith.
Import ListNotations.
Open Scope string_scope.
Open Scope bool_scope.

(** ** Characters named by the source *)

Definition dquote : ascii := "034"%char.
Definition squote : ascii := "'"%char.
Definition backslash : ascii := "\"%char.
Definition space : ascii := " "%char.
Definition tab : ascii := "009"%char.
Definition newline : ascii := "010"%char.
Definition creturn : ascii := "013"%char.

(** [args.push(s)] *)
Definition push (args : list string) (s : string) : list string :=
  (args ++ [s])%list.

(** [s += char] *)
Definition push_char (s : string) (c : ascii) : string := s ++ String c EmptyString.

(** JavaScript truthiness of a string: every string but the empty one. *)
Definition truthy (s : string) : bool :=
  match s with
  | EmptyString => false
  | String _ _ => true
  end.

(** A call either returns a value or throws [new Error(message)]. *)
Inductive result (A : Type) : Type :=
| Ok (value : A)
| Throw (message : string).
Arguments Ok {A} value.
Arguments Throw {A} message.

(** ** The tokenizer, [parseArgs] *)

Module Tokenizer.

(** The four locals of [parseArgs]. *)
Record state : Type := mkState {
  args : list string;
  current : string;
  quote : option ascii;
  escape : bool
}.

Definition init : state :=
  {| args := []; current := EmptyString; quote := None; escape := false |}.

Definition is_space (char : ascii) : bool :=
  Ascii.eqb char space || Ascii.eqb char tab
  || Ascii.eqb char newline || Ascii.eqb char creturn.

(** One iteration of the [for] loop over [commandStr]. *)
Definition step (st : state) (char : ascii) : state :=
  if escape st then
    {| args := args st; current := push_char (current st) char;
       quote := quote st; escape := false |}
  else if Ascii.eqb char backslash then
    {| args := args st; current := current st;
       quote := quote st; escape := true |}
  else
    match quote st with
    | Some q =>
        if Ascii.eqb char q then
          {| args := args st; current := current st;
             quote := None; escape := false |}
        else
          {| args := args st; current := push_char (current st) char;
             quote := Some q; escape := false |}
    | None =>
        if Ascii.eqb char dquote || Ascii.eqb char squote then
          {| args := args st; current := current st;
             quote := Some char; escape := false |}
        else if is_space char then
          if truthy (current st) then
            {| args := push (args st) (current st); current := EmptyString;
               quote := None; escape := false |}
          else st
        else
          {| args := args st; current := push_char (current st) char;
             quote := None; escape := false |}
    end.

(** The whole loop, left to right. *)
Fixpoint loop (st : state) (commandStr : string) : state :=
  match commandStr with
  | EmptyString => st
  | String char rest => loop (step st char) rest
  end.

Definition unclosed_message (q : ascii) : string :=
  "Syntax error: Unclosed quote " ++ String q EmptyString.

(** What follows the loop: the unclosed-quote check and the last flush. *)
Definition finish (st : state) : result (list string) :=
  match quote st with
  | Some q => Throw (unclosed_message q)
  | None =>
      Ok (if truthy (current st) then push (args st) (current st) else args st)
  end.

Definition parseArgs (commandStr : string) : result (list string) :=
  finish (loop init commandStr).

End Tokenizer.

(** ** Regular expressions, as [RegExp.prototype.test] runs them

    The patterns of the whitelist are [RegExp] objects of the host language.
    A pattern is matched by the backtracking matcher of the language
    definition: a matcher takes the position reached and a continuation for
    the rest of the pattern, and gives the end of the first match in the
    order of its choices, or fails.  The fragment of the syntax covers what
    the compiled-in table is written in (characters, classes with ranges and
    [\w], [.], [^], [$], sequence, alternative, [*] and [+]).

    A [RegExp] object is mutable: with the [g] or the [y] flag, [test] starts
    at the [lastIndex] of the object and writes it back.  An object is
    therefore its matcher, its two flags and its [lastIndex], and [test]
    returns the object as it leaves it.  The matcher of an object may be any
    function from the input and a start position to the end of a match: the
    syntax of a pattern and its other flags bear on the matcher alone, so
    what is proved of objects holds of the patterns a configuration brings
    in as well. *)

Module RegExp.

Inductive class_item : Type :=
| One (c : ascii)
| Range (lo hi : ascii)
| Word.

Inductive pattern : Type :=
| Empty
| Char (c : ascii)
| Class (negated : bool) (items : list class_item)
| Dot
| Bol
| Eol
| Seq (r1 r2 : pattern)
| Alt (r1 r2 : pattern)
| Star (r : pattern)
| Plus (r : pattern).

Definition between (lo hi c : ascii) : bool :=
  Nat.leb (nat_of_ascii lo) (nat_of_ascii c) && Nat.leb (nat_of_ascii c) (nat_of_ascii hi).

(** [\w] is [A-Za-z0-9_]. *)
Definition is_word (c : ascii) : bool :=
  between "a" "z" c || between "A" "Z" c || between "0" "9" c || Ascii.eqb c "_".

Definition item_mem (c : ascii) (it : class_item) : bool :=
  match it with
  | One c' => Ascii.eqb c c'
  | Range lo hi => between lo hi c
  | Word => is_word c
  end.

(** [.] matches every character but a line terminator. *)
Definition is_line_terminator (c : ascii) : bool :=
  Ascii.eqb c newline || Ascii.eqb c creturn.

(** A matcher: the position to start at and the continuation for the rest;
    the result is the end of the match, [None] for a failure. *)
Definition matcher_fn : Type := nat -> (nat -> option nat) -> option nat.

(** The first choice when it succeeds, the second otherwise. *)
Definition or_else (first second : option nat) : option nat :=
  match first with
  | Some e => Some e
  | None => second
  end.

(** One character accepted by [ok], then the continuation. *)
Definition char_matcher (s : string) (ok : ascii -> bool) : matcher_fn :=
  fun x c =>
    match String.get x s with
    | Some ch => if ok ch then c (S x) else None
    | None => None
    end.

(** The greedy repetition matcher with minimum zero and no maximum: match
    [m] once more, refusing an iteration that consumed nothing, and only
    then try to stop here.  An iteration moves forward by at least one
    character, so [fuel] is the length of the input. *)
Fixpoint repeat (fuel : nat) (m : matcher_fn) (x : nat) (c : nat -> option nat)
  : option nat :=
  match fuel with
  | O => c x
  | S fuel' =>
      or_else (m x (fun y => if Nat.eqb y x then None else repeat fuel' m y c))
              (c x)
  end.

Fixpoint compile (s : string) (r : pattern) : matcher_fn :=
  match r with
  | Empty => fun x c => c x
  | Char ch => char_matcher s (Ascii.eqb ch)
  | Class negated items =>
      char_matcher s (fun ch => xorb negated (existsb (item_mem ch) items))
  | Dot => char_matcher s (fun ch => negb (is_line_terminator ch))
  | Bol => fun x c => if Nat.eqb x 0 then c x else None
  | Eol => fun x c => if Nat.eqb x (String.length s) then c x else None
  | Seq r1 r2 => fun x c => compile s r1 x (fun y => compile s r2 y c)
  | Alt r1 r2 => fun x c => or_else (compile s r1 x c) (compile s r2 x c)
  | Star r' => repeat (String.length s) (compile s r')
  | Plus r' =>
      fun x c => compile s r' x (fun y => repeat (String.length s) (compile s r') y c)
  end.

(** The matcher of a pattern: the input, the start, the end of the match. *)
Definition exec (r : pattern) (s : string) (x : nat) : option nat :=
  compile s r x (fun y => Some y).

Definition is_some (o : option nat) : bool :=
  match o with
  | Some _ => true
  | None => false
  end.

(** The continuation that accepts the position [y] only. *)
Definition stop_at (y : nat) : nat -> option nat :=
  fun z => if Nat.eqb z y then Some z else None.

(** [r] matches the characters of [s] from position [x] up to position [y]. *)
Definition span (r : pattern) (s : string) (x y : nat) : bool :=
  is_some (compile s r x (stop_at y)).

(** The whole of [s] is one match of [r]. *)
Definition full_match (r : pattern) (s : string) : bool :=
  span r s 0 (String.length s).

(** A [RegExp] object. *)
Record object : Type := mkObject {
  regExpMatcher : string -> nat -> option nat;
  global : bool;
  sticky : bool;
  lastIndex : nat
}.

(** The object a literal of the pattern [r] with the flags [g] and [y]
    evaluates to. *)
Definition regexp (r : pattern) (g y : bool) : object :=
  {| regExpMatcher := exec r; global := g; sticky := y; lastIndex := 0 |}.

Definition set_lastIndex (r : object) (i : nat) : object :=
  {| regExpMatcher := regExpMatcher r; global := global r; sticky := sticky r;
     lastIndex := i |}.

(** The loop of a match that is not sticky: the start positions [x], [x + 1],
    up to [x + fuel], until the matcher succeeds. *)
Fixpoint scan (m : nat -> option nat) (fuel x : nat) : option nat :=
  match m x with
  | Some e => Some e
  | None =>
      match fuel with
      | O => None
      | S fuel' => scan m fuel' (S x)
      end
  end.

(** [r.test(s)].  Without [g] and [y] the search starts at 0 and [lastIndex]
    is left alone; with one of them it starts at [lastIndex], which is set to
    the end of the match, or to 0 when there is none; with [y] only the
    start position itself is tried.  A start beyond the end of [s] fails. *)
Definition test (r : object) (s : string) : bool * object :=
  let stateful := global r || sticky r in
  let start := if stateful then lastIndex r else 0 in
  let found :=
    if Nat.ltb (String.length s) start then None
    else if sticky r then regExpMatcher r s start
    else scan (regExpMatcher r s) (String.length s - start) start in
  match found with
  | Some e => (true, if stateful then set_lastIndex r e else r)
  | None => (false, if stateful then set_lastIndex r 0 else r)
  end.

End RegExp.

(** ** The whitelist and the validator, [validateCommand]

    The [RegExp] objects live in the records of the whitelist, one object for
    each pattern written in the table or read from the configuration, so the
    whitelist is also the store of their [lastIndex]: what tests a pattern
    returns the whitelist as the test leaves it. *)

Module Validator.

(** [string | RegExp] *)
Inductive matcher : Type :=
| Literal (s : string)
| Pattern (r : RegExp.object).

Record AllowedCommand : Type := mkAllowed {
  command : string;
  allowedArgs : option (list matcher);
  deniedArgs : option (list matcher)
}.

(** The callback of [some]: [===] on a string, [test] on a [RegExp].  Its
    last [return false] is for a value that is neither, which the type of
    [allowedArgs] and [deniedArgs] leaves out. *)
Definition matches (arg : string) (m : matcher) : bool * matcher :=
  match m with
  | Literal s => (String.eqb arg s, m)
  | Pattern r => let (found, r') := RegExp.test r arg in (found, Pattern r')
  end.

(** [list.some(matches)]: the matchers are tried in order and the first that
    matches ends the walk, the ones after it are not tested. *)
Fixpoint some_matches (arg : string) (l : list matcher) : bool * list matcher :=
  match l with
  | [] => (false, [])
  | m :: rest =>
      let (found, m') := matches arg m in
      if found then (true, m' :: rest)
      else let (found', rest') := some_matches arg rest in (found', m' :: rest')
  end.

Definition denied_message (arg baseCommand : string) : string :=
  "Argument '" ++ arg ++ "' for command '" ++ baseCommand ++ "' is explicitly denied.".

Definition not_allowed_message (arg baseCommand : string) : string :=
  "Argument '" ++ arg ++ "' for command '" ++ baseCommand ++ "' is not allowed.".

Definition not_whitelisted_message (baseCommand : string) : string :=
  "Command '" ++ baseCommand ++ "' is not in the allowed whitelist.".

Definition with_denied (allowedConfig : AllowedCommand) (denied : list matcher)
  : AllowedCommand :=
  {| command := command allowedConfig; allowedArgs := allowedArgs allowedConfig;
     deniedArgs := Some denied |}.

Definition with_allowed (allowedConfig : AllowedCommand) (allowed : list matcher)
  : AllowedCommand :=
  {| command := command allowedConfig; allowedArgs := Some allowed;
     deniedArgs := deniedArgs allowedConfig |}.

(** The body of the [for] loop for one argument: the message it returns
    with, or [None] when the loop goes on, and the record as the tests of
    this argument leave it.  The deny check comes first; the allow check is
    reached only when no denied matcher matched. *)
Definition check_arg (allowedConfig : AllowedCommand) (baseCommand arg : string)
  : option string * AllowedCommand :=
  let (isDenied, afterDeny) :=
    match deniedArgs allowedConfig with
    | Some denied =>
        let (found, denied') := some_matches arg denied in
        (found, with_denied allowedConfig denied')
    | None => (false, allowedConfig)
    end in
  if isDenied then (Some (denied_message arg baseCommand), afterDeny)
  else
    match allowedArgs afterDeny with
    | Some allowed =>
        let (isAllowedArg, allowed') := some_matches arg allowed in
        if negb isAllowedArg
        then (Some (not_allowed_message arg baseCommand), with_allowed afterDeny allowed')
        else (None, with_allowed afterDeny allowed')
    | None => (None, afterDeny)
    end.

(** [for (const arg of args)], left at the first [return]. *)
Fixpoint check_args (allowedConfig : AllowedCommand) (baseCommand : string)
  (args : list string) : option string * AllowedCommand :=
  match args with
  | [] => (None, allowedConfig)
  | arg :: rest =>
      match check_arg allowedConfig baseCommand arg with
      | (Some message, allowedConfig') => (Some message, allowedConfig')
      | (None, allowedConfig') => check_args allowedConfig' baseCommand rest
      end
  end.

Definition present {A : Type} (field : option A) : bool :=
  match field with Some _ => true | None => false end.

(** The record that [find] returned, put back where it was found. *)
Fixpoint store (baseCommand : string) (allowedConfig : AllowedCommand)
  (allowedCommands : list AllowedCommand) : list AllowedCommand :=
  match allowedCommands with
  | [] => []
  | c :: rest =>
      if String.eqb (command c) baseCommand then allowedConfig :: rest
      else c :: store baseCommand allowedConfig rest
  end.

(** The value returned, [null] being [None] and a rejection its message, and
    [this.allowedCommands] as the call leaves it. *)
Definition validateCommand (allowedCommands : list AllowedCommand)
  (baseCommand : string) (args : list string)
  : option string * list AllowedCommand :=
  match find (fun c => String.eqb (command c) baseCommand) allowedCommands with
  | None => (Some (not_whitelisted_message baseCommand), allowedCommands)
  | Some allowedConfig =>
      if present (allowedArgs allowedConfig) || present (deniedArgs allowedConfig)
      then
        let (message, allowedConfig') := check_args allowedConfig baseCommand args in
        (message, store baseCommand allowedConfig' allowedCommands)
      else (None, allowedCommands)
  end.

(** What the two checks answer for one argument on the record as it stands. *)
Definition isDenied (allowedConfig : AllowedCommand) (arg : string) : bool :=
  match deniedArgs allowedConfig with
  | Some denied => fst (some_matches arg denied)
  | None => false
  end.

(** [true] when [allowedArgs] is absent: the allow check is then skipped. *)
Definition isAllowedArg (allowedConfig : AllowedCommand) (arg : string) : bool :=
  match allowedArgs allowedConfig with
  | Some allowed => fst (some_matches arg allowed)
  | None => true
  end.

(** *** [DEFAULT_ALLOWED_COMMANDS] *)

Definition only (name : string) : AllowedCommand :=
  {| command := name; allowedArgs := None; deniedArgs := None |}.

Import RegExp.

(** A [RegExp] literal with no flag, as all of the table are. *)
Definition regex (r : pattern) : matcher := Pattern (regexp r false false).

(** The package-name pattern of the table: from the start to the end of the
    argument, one or more characters of the class holding the double quote,
    [\w], [@], [/], [.] and [-]. *)
Definition re_package : pattern :=
  Seq Bol (Seq (Plus (Class false
    [One dquote; Word; One "@"; One "/"; One "."; One "-"])) Eol).

(** [/^-/]: a dash at the start, anything after it. *)
Definition re_option : pattern := Seq Bol (Char "-").

(** [/^'[^']*'$/]: a single quote, any characters but it, a single quote. *)
Definition re_single_quoted : pattern :=
  Seq Bol (Seq (Char squote) (Seq (Star (Class true [One squote]))
    (Seq (Char squote) Eol))).

(** The same between two double quotes. *)
Definition re_double_quoted : pattern :=
  Seq Bol (Seq (Char dquote) (Seq (Star (Class true [One dquote]))
    (Seq (Char dquote) Eol))).

Definition literals (l : list string) : list matcher := map Literal l.

Definition npm : AllowedCommand :=
  {| command := "npm";
     allowedArgs := Some (literals
       ["install"; "i"; "ci";
        "run"; "test"; "start"; "build"; "dev"; "lint"; "format";
        "init"; "create";
        "list"; "ls";
        "view"; "search"; "info"; "audit"; "fund"; "doctor";
        "version"; "v"]
       ++ [regex re_package; regex re_option])%list;
     deniedArgs := Some (literals
       ["publish"; "unpublish"; "login"; "logout"; "adduser"; "owner";
        "team"; "token"; "whoami"; "eval"; "exec"]) |}.

Definition yarn : AllowedCommand :=
  {| command := "yarn";
     allowedArgs := Some (literals
       ["install"; "add"; "remove";
        "run"; "test"; "start"; "build"; "dev"; "lint"; "format";
        "init"; "create";
        "list"; "info"; "audit"; "why";
        "version"; "-v"; "--version"]
       ++ [regex re_package; regex re_option])%list;
     deniedArgs := Some (literals
       ["publish"; "login"; "logout"; "owner"; "team"; "whoami"; "exec";
        "node"]) |}.

Definition pnpm : AllowedCommand :=
  {| command := "pnpm";
     allowedArgs := Some (literals
       ["install"; "i"; "add"; "remove";
        "run"; "test"; "start"; "build"; "dev"; "lint"; "format";
        "init"; "create";
        "list"; "ls"; "info"; "audit"; "why"; "store";
        "version"; "-v"; "--version"]
       ++ [regex re_package; regex re_option])%list;
     deniedArgs := Some (literals
       ["publish"; "login"; "logout"; "server"; "exec"; "dlx"]) |}.

Definition git : AllowedCommand :=
  {| command := "git";
     allowedArgs := Some (literals
       ["status"; "log"; "diff"; "show"; "branch"; "tag";
        "checkout"; "switch"; "add"; "commit"; "push"; "pull"; "fetch";
        "clone"; "init"; "remote"; "config";
        "stash"; "merge"; "rebase"; "reset"; "restore";
        "clean"; "blame"; "grep"]
       ++ [regex re_package; regex re_option;
           regex re_single_quoted; regex re_double_quoted])%list;
     deniedArgs := None |}.

Definition DEFAULT_ALLOWED_COMMANDS : list AllowedCommand :=
  (map only
     ["ls"; "cat"; "echo"; "pwd"; "whoami"; "date"; "grep"; "find"; "head";
      "tail"; "wc"; "du"; "df"; "which";
      "mkdir"; "touch"; "cp"]
   ++ [npm; yarn; pnpm]
   ++ [only "tsc"]
   ++ [git]
   ++ map only ["pod"; "xcodebuild"; "fastlane"; "curl"])%list.

End Validator.

(** ** The process runner, [spawnAsync]

    The promise executor registers five callbacks and returns; the event loop
    then runs them one at a time, each to completion.  A run of [spawnAsync]
    is therefore the list of events delivered, folded over the locals of the
    executor. *)

Module Runner.

(** The marker appended to a stream that hit the size limit. *)
Definition marker : string :=
  String newline "...[Output truncated due to size limit]...".

(** The three [Error] values the promise is rejected with:
    the timer's, the child's own [error] event, a non-zero exit code. *)
Inductive failure : Type :=
| TimedOut (timeoutMs : nat)
| ChildError (error : string)
| ExitedWith (code : option Z) (stderr : string).

Inductive settlement : Type :=
| Resolved (stdout stderr : string)
| Rejected (reason : failure).

(** [code] is [null] when a signal ended the child. *)
Inductive event : Type :=
| StdoutData (data : string)
| StderrData (data : string)
| TimerFires
| OnError (error : string)
| OnClose (code : option Z).

(** The locals of the executor, the state of the timer ([timer] is [true]
    while the callback of [setTimeout] is still due), whether [child.kill()]
    was called, and the promise: [None] while pending. *)
Record state : Type := mkState {
  stdout : string;
  stderr : string;
  stdoutTruncated : bool;
  stderrTruncated : bool;
  timedOut : bool;
  timer : bool;
  killed : bool;
  promise : option settlement
}.

Definition start : state :=
  {| stdout := EmptyString; stderr := EmptyString;
     stdoutTruncated := false; stderrTruncated := false;
     timedOut := false; timer := true; killed := false; promise := None |}.

(** [resolve] and [reject] settle a pending promise and do nothing to a
    settled one. *)
Definition settle (p : option settlement) (s : settlement) : option settlement :=
  match p with
  | None => Some s
  | Some _ => p
  end.

(** The body shared by the two [data] callbacks, on one stream's buffer
    and flag. *)
Definition on_data (maxBuffer : nat) (buffer : string) (truncated : bool)
  (data : string) : string * bool :=
  if Nat.ltb (String.length buffer) maxBuffer then (buffer ++ data, truncated)
  else if negb truncated then (buffer ++ marker, true)
  else (buffer, truncated).

Section Handlers.

Variables timeoutMs maxBuffer : nat.

Definition handle (st : state) (e : event) : state :=
  match e with
  | StdoutData data =>
      let '(buffer, truncated) :=
        on_data maxBuffer (stdout st) (stdoutTruncated st) data in
      {| stdout := buffer; stderr := stderr st;
         stdoutTruncated := truncated; stderrTruncated := stderrTruncated st;
         timedOut := timedOut st; timer := timer st; killed := killed st;
         promise := promise st |}
  | StderrData data =>
      let '(buffer, truncated) :=
        on_data maxBuffer (stderr st) (stderrTruncated st) data in
      {| stdout := stdout st; stderr := buffer;
         stdoutTruncated := stdoutTruncated st; stderrTruncated := truncated;
         timedOut := timedOut st; timer := timer st; killed := killed st;
         promise := promise st |}
  | TimerFires =>
      (* a timer that was cleared, or has fired, does not call back *)
      if timer st then
        {| stdout := stdout st; stderr := stderr st;
           stdoutTruncated := stdoutTruncated st;
           stderrTruncated := stderrTruncated st;
           timedOut := true; timer := false; killed := true;
           promise := settle (promise st) (Rejected (TimedOut timeoutMs)) |}
      else st
  | OnError error =>
      {| stdout := stdout st; stderr := stderr st;
         stdoutTruncated := stdoutTruncated st;
         stderrTruncated := stderrTruncated st;
         timedOut := timedOut st; timer := false; killed := killed st;
         promise :=
           if negb (timedOut st)
           then settle (promise st) (Rejected (ChildError error))
           else promise st |}
  | OnClose code =>
      {| stdout := stdout st; stderr := stderr st;
         stdoutTruncated := stdoutTruncated st;
         stderrTruncated := stderrTruncated st;
         timedOut := timedOut st; timer := false; killed := killed st;
         promise :=
           if negb (timedOut st) then
             match code with
             | Some 0%Z => settle (promise st) (Resolved (stdout st) (stderr st))
             | _ => settle (promise st) (Rejected (ExitedWith code (stderr st)))
             end
           else promise st |}
  end.

Definition run (st : state) (events : list event) : state :=
  fold_left handle events st.

(** The state a call is in after the events delivered so far. *)
Definition spawnAsync (events : list event) : state := run start events.

End Handlers.

(** One stream on its own: the buffer and flag after the chunks [chunks]. *)
Definition feed (maxBuffer : nat) (chunks : list string) : string * bool :=
  fold_left (fun acc data => on_data maxBuffer (fst acc) (snd acc) data)
    chunks (EmptyString, false).

Definition stdout_chunks (events : list event) : list string :=
  flat_map (fun e => match e with StdoutData d => [d] | _ => [] end) events.

Definition stderr_chunks (events : list event) : list string :=
  flat_map (fun e => match e with StderrData d => [d] | _ => [] end) events.

Definition is_data (e : event) : bool :=
  match e with
  | StdoutData _ | StderrData _ => true
  | _ => false
  end.

End Runner.

(** ** Reading the whitelist: [parseRegex] and the map of [readConfigFile] *)

Module Config.

Definition slash : ascii := "/"%char.

(** [s.startsWith(c)] for a one-character [c]. *)
Definition startsWith (c : ascii) (s : string) : bool :=
  match s with
  | EmptyString => false
  | String x _ => Ascii.eqb x c
  end.

(** [s.lastIndexOf(c)] for a one-character [c]; [None] is the -1 of the
    source. *)
Fixpoint lastIndexOf (c : ascii) (s : string) : option nat :=
  match s with
  | EmptyString => None
  | String x rest =>
      match lastIndexOf c rest with
      | Some i => Some (S i)
      | None => if Ascii.eqb x c then Some 0 else None
      end
  end.

(** [s.substring(first, last)] with [first <= last], as the source calls
    it, and [s.substring(first)]. *)
Definition substring_between (first last : nat) (s : string) : string :=
  String.substring first (last - first) s.

Definition substring_from (first : nat) (s : string) : string :=
  String.substring first (String.length s - first) s.

Section ParseRegex.

(** The [RegExp] objects of the host and their constructor, which throws on
    a pattern or on flags it refuses: [None]. *)
Variable R : Type.
Variable newRegExp : string -> string -> option R.

(** [string | RegExp] *)
Inductive arg_value : Type :=
| Str (s : string)
| Re (r : R).

Definition parseRegex (arg : arg_value) : arg_value :=
  match arg with
  | Re _ => arg
  | Str a =>
      if startsWith slash a
         && match lastIndexOf slash a with
            | Some i => Nat.ltb 0 i
            | None => false
            end
      then
        match lastIndexOf slash a with
        | Some lastSlash =>
            let pattern := substring_between 1 lastSlash a in
            let flags := substring_from (lastSlash + 1) a in
            match newRegExp pattern flags with
            | Some r => Re r
            | None => arg
            end
        | None => arg
        end
      else arg
  end.

End ParseRegex.

Arguments Str {R} s.
Arguments Re {R} r.
Arguments parseRegex {R} newRegExp arg.

(** An entry of [allowedCommands] as [JSON.parse] gives it. *)
Record RawCommand : Type := mkRaw {
  raw_command : string;
  raw_allowedArgs : option (list string);
  raw_deniedArgs : option (list string)
}.

Definition to_matcher (v : arg_value RegExp.object) : Validator.matcher :=
  match v with
  | Str s => Validator.Literal s
  | Re r => Validator.Pattern r
  end.

Section ReadConfig.

Variable newRegExp : string -> string -> option RegExp.object.

(** [cmd.allowedArgs?.map(arg => this.parseRegex(arg))] *)
Definition parse_all (field : option (list string)) : option (list Validator.matcher) :=
  option_map (map (fun arg => to_matcher (parseRegex newRegExp (Str arg)))) field.

(** The callback of the [map] in [readConfigFile]. *)
Definition convert (cmd : RawCommand) : Validator.AllowedCommand :=
  {| Validator.command := raw_command cmd;
     Validator.allowedArgs := parse_all (raw_allowedArgs cmd);
     Validator.deniedArgs := parse_all (raw_deniedArgs cmd) |}.

Definition convert_all (allowedCommands : list RawCommand)
  : list Validator.AllowedCommand :=
  map convert allowedCommands.

End ReadConfig.

End Config.

(** ** The tool handler, up to the call of [spawnAsync] *)

Module Handler.

Record response : Type := mkResponse {
  text : string;
  isError : bool
}.

(** What the handler does with a command line: it answers at once, or it
    calls [spawnAsync(cmd, cmdArgs)]. *)
Inductive action : Type :=
| Respond (r : response)
| Spawn (cmd : string) (cmdArgs : list string).

Definition nl : string := String newline EmptyString.

(** The body of the [try], with its [catch] for the error of [parseArgs],
    and the whitelist as [validateCommand] leaves it.  A message of
    [validateCommand] is never empty, so [if (validationError)] is the test
    for a message. *)
Definition prepare (allowedCommands : list Validator.AllowedCommand)
  (commandStr : string) : action * list Validator.AllowedCommand :=
  match Tokenizer.parseArgs commandStr with
  | Throw message =>
      (Respond {| text := "Execution failed:" ++ nl ++ message; isError := true |},
       allowedCommands)
  | Ok [] =>
      (Respond {| text := "Error: Command is empty."; isError := true |},
       allowedCommands)
  | Ok (cmd :: cmdArgs) =>
      let (validationError, allowedCommands') :=
        Validator.validateCommand allowedCommands cmd cmdArgs in
      match validationError with
      | Some message =>
          (Respond {| text := "Error: Command validation failed. " ++ message;
                      isError := true |},
           allowedCommands')
      | None => (Spawn cmd cmdArgs, allowedCommands')
      end
  end.

End Handler.

Import Tokenizer.
Import Validator.

(** [s] between two double quotes, to write inputs that hold them. *)
Definition in_dquotes (s : string) : string :=
  String dquote (s ++ String dquote EmptyString).

(** * Strings *)

Lemma append_nil_r (s : string) : s ++ EmptyString = s.
Proof. induction s as [|c s IH]; simpl; [reflexivity | now rewrite IH]. Qed.

Lemma append_assoc (a b c : string) : (a ++ b) ++ c = a ++ (b ++ c).
Proof. induction a as [|x a IH]; simpl; [reflexivity | now rewrite IH]. Qed.

Lemma length_append (a b : string) :
  String.length (a ++ b) = String.length a + String.length b.
Proof. induction a as [|x a IH]; simpl; [reflexivity | now rewrite IH]. Qed.

Lemma truthy_iff (s : string) : truthy s = true <-> s <> EmptyString.
Proof. destruct s; simpl; split; congruence. Qed.

(** * The tokenizer *)

Lemma loop_app (st : state) (a b : string) :
  loop st (a ++ b) = loop (loop st a) b.
Proof. revert st. induction a as [|c a IH]; intros st; simpl; [reflexivity | apply IH]. Qed.

(** A backslash met with no escape pending only raises the flag. *)
Lemma step_backslash (st : state) :
  escape st = false ->
  step st backslash =
  {| args := args st; current := current st; quote := quote st; escape := true |}.
Proof. intros H. unfold step. rewrite H. reflexivity. Qed.

(** With the flag raised, any character is appended and nothing else moves. *)
Lemma step_escaped (st : state) (c : ascii) :
  escape st = true ->
  step st c =
  {| args := args st; current := push_char (current st) c;
     quote := quote st; escape := false |}.
Proof. intros H. unfold step. rewrite H. reflexivity. Qed.

(** C5: the reference inputs of the tokenizer give the reference outputs:
    two plain words, a double-quoted and a single-quoted argument holding
    a space, a quoted part glued to its neighbours, and the empty input. *)
Theorem parseArgs_reference_equalities :
  parseArgs "ls -la" = Ok ["ls"; "-la"]
  /\ parseArgs ("git commit -m " ++ in_dquotes "fix bug")
     = Ok ["git"; "commit"; "-m"; "fix bug"]
  /\ parseArgs "echo 'hello world'" = Ok ["echo"; "hello world"]
  /\ parseArgs ("a" ++ in_dquotes "b" ++ "c") = Ok ["abc"]
  /\ parseArgs EmptyString = Ok [].
Proof. repeat split. Qed.

(** The escaped state of the source's own test: backslash-quote pairs outside
    quotes give a token that holds the quotes. *)
Example parseArgs_escaped_quotes :
  parseArgs ("echo \" ++ String dquote "hello\" ++ String dquote EmptyString)
  = Ok ["echo"; in_dquotes "hello"].
Proof. reflexivity. Qed.

(** C6: a backslash that is not itself escaped escapes the character after
    it, inside or outside quotes: the two steps leave the token list and the
    quote state as they were and append the character to the current token;
    in a whole input the pair acts as that one append; and such a backslash at
    the very end of the input changes nothing of the result. *)
Theorem backslash_escapes_next_char :
  (forall (st : state) (c : ascii),
      escape st = false ->
      step (step st backslash) c =
      {| args := args st; current := push_char (current st) c;
         quote := quote st; escape := false |})
  /\ (forall (pre post : string) (c : ascii),
         escape (loop init pre) = false ->
         parseArgs (pre ++ String backslash (String c post)) =
         finish (loop {| args := args (loop init pre);
                         current := push_char (current (loop init pre)) c;
                         quote := quote (loop init pre);
                         escape := false |} post))
  /\ (forall commandStr : string,
         escape (loop init commandStr) = false ->
         parseArgs (commandStr ++ String backslash EmptyString) = parseArgs commandStr).
Proof.
  assert (pair : forall st c, escape st = false ->
            step (step st backslash) c =
            {| args := args st; current := push_char (current st) c;
               quote := quote st; escape := false |}).
  { intros st c H. rewrite (step_backslash st H). now rewrite step_escaped. }
  split; [exact pair|]. split.
  - intros pre post c H. unfold parseArgs.
    rewrite loop_app. simpl. now rewrite (pair _ c H).
  - intros commandStr H. unfold parseArgs.
    rewrite loop_app. simpl. rewrite (step_backslash _ H).
    unfold finish. reflexivity.
Qed.

(** The three parts of C6 at concrete inputs: an escaped quote inside a
    quoted argument, an escaped space outside, a dangling backslash. *)
Lemma backslash_escapes_next_char_witness :
  step (step init backslash) dquote =
    {| args := []; current := String dquote EmptyString; quote := None;
       escape := false |}
  /\ parseArgs ("a" ++ String backslash (String space "b")) = Ok ["a b"]
  /\ parseArgs ("ls" ++ String backslash EmptyString) = Ok ["ls"].
Proof.
  destruct backslash_escapes_next_char as [H1 [H2 H3]].
  split; [| split].
  - apply (H1 init dquote). reflexivity.
  - rewrite (H2 "a" "b" space); reflexivity.
  - rewrite (H3 "ls"); reflexivity.
Defined.

(** Every word pushed so far is non-empty: the two pushes are guarded by the
    truthiness of [current]. *)
Definition all_nonempty (l : list string) : Prop :=
  Forall (fun t => t <> EmptyString) l.

Lemma all_nonempty_push (l : list string) (s : string) :
  all_nonempty l -> truthy s = true -> all_nonempty (push l s).
Proof.
  intros Hl Hs. unfold all_nonempty, push. apply Forall_app. split; [exact Hl|].
  constructor; [now apply truthy_iff | constructor].
Qed.

Lemma step_args_nonempty (st : state) (c : ascii) :
  all_nonempty (args st) -> all_nonempty (args (step st c)).
Proof.
  intros H. unfold step.
  destruct (escape st); [exact H|].
  destruct (Ascii.eqb c backslash); [exact H|].
  destruct (quote st) as [q|].
  - destruct (Ascii.eqb c q); exact H.
  - destruct (Ascii.eqb c dquote || Ascii.eqb c squote); [exact H|].
    destruct (is_space c); [|exact H].
    destruct (truthy (current st)) eqn:E; [|exact H].
    simpl. now apply all_nonempty_push.
Qed.

Lemma loop_args_nonempty (commandStr : string) (st : state) :
  all_nonempty (args st) -> all_nonempty (args (loop st commandStr)).
Proof.
  revert st. induction commandStr as [|c rest IH]; intros st H; simpl.
  - exact H.
  - apply IH. now apply step_args_nonempty.
Qed.

(** C9: no token returned by the tokenizer is the empty string, and a quoted
    empty string after a word adds no token. *)
Theorem parseArgs_tokens_nonempty :
  (forall (commandStr : string) (tokens : list string),
      parseArgs commandStr = Ok tokens -> all_nonempty tokens)
  /\ parseArgs ("echo " ++ in_dquotes EmptyString) = Ok ["echo"].
Proof.
  split; [|reflexivity].
  intros commandStr tokens. unfold parseArgs, finish.
  pose proof (loop_args_nonempty commandStr init (Forall_nil _)) as H.
  destruct (quote (loop init commandStr)); [discriminate|].
  intros E. injection E as <-.
  destruct (truthy (current (loop init commandStr))) eqn:T; [|exact H].
  now apply all_nonempty_push.
Qed.

Lemma parseArgs_tokens_nonempty_witness :
  all_nonempty ["git"; "commit"; "-m"; "fix bug"].
Proof.
  apply (proj1 parseArgs_tokens_nonempty ("git commit -m " ++ in_dquotes "fix bug")).
  reflexivity.
Defined.


(** * The validator *)

(** The rule of a program is the first record of the list with its name. *)
Definition named (baseCommand : string) (c : AllowedCommand) : bool :=
  String.eqb (command c) baseCommand.

Lemma find_first (before after : list AllowedCommand) (cfg : AllowedCommand)
  (baseCommand : string) :
  Forall (fun c => command c <> baseCommand) before ->
  command cfg = baseCommand ->
  find (named baseCommand) (before ++ cfg :: after) = Some cfg.
Proof.
  intros Hb Hc. induction Hb as [|c before Hne _ IH]; simpl.
  - unfold named. rewrite Hc, String.eqb_refl. reflexivity.
  - unfold named at 1. apply String.eqb_neq in Hne. rewrite Hne. exact IH.
Qed.

Lemma find_unlisted (allowedCommands : list AllowedCommand) (baseCommand : string) :
  Forall (fun c => command c <> baseCommand) allowedCommands ->
  find (named baseCommand) allowedCommands = None.
Proof.
  induction 1 as [|c l Hne _ IH]; simpl; [reflexivity|].
  unfold named at 1. apply String.eqb_neq in Hne. now rewrite Hne.
Qed.

Lemma find_listed (allowedCommands : list AllowedCommand) (baseCommand : string) :
  (exists c, In c allowedCommands /\ command c = baseCommand) ->
  exists cfg, find (named baseCommand) allowedCommands = Some cfg.
Proof.
  intros [c [Hin Hc]]. destruct (find (named baseCommand) allowedCommands) eqn:E.
  - eauto.
  - apply (find_none _ _ E) in Hin. unfold named in Hin.
    rewrite Hc, String.eqb_refl in Hin. discriminate.
Qed.

(** The value a call returns, from the record that [find] gives. *)
Lemma validateCommand_rule (allowedCommands : list AllowedCommand)
  (cfg : AllowedCommand) (baseCommand : string) (args : list string) :
  find (named baseCommand) allowedCommands = Some cfg ->
  fst (validateCommand allowedCommands baseCommand args) =
  if present (allowedArgs cfg) || present (deniedArgs cfg)
  then fst (check_args cfg baseCommand args) else None.
Proof.
  intros H. unfold validateCommand. fold (named baseCommand). rewrite H.
  destruct (present (allowedArgs cfg) || present (deniedArgs cfg)); [|reflexivity].
  now destruct (check_args cfg baseCommand args).
Qed.

(** C2: a program with no record in the list is rejected, whatever its
    arguments, with the message that quotes its name; a program whose
    record has neither [allowedArgs] nor [deniedArgs] is accepted with any
    arguments. *)
Theorem validateCommand_unlisted_and_bare :
  (forall (allowedCommands : list AllowedCommand) (baseCommand : string)
          (args : list string),
      Forall (fun c => command c <> baseCommand) allowedCommands ->
      fst (validateCommand allowedCommands baseCommand args) =
      Some ("Command '" ++ baseCommand ++ "' is not in the allowed whitelist."))
  /\ (forall (before after : list AllowedCommand) (cfg : AllowedCommand)
             (baseCommand : string) (args : list string),
         Forall (fun c => command c <> baseCommand) before ->
         command cfg = baseCommand ->
         allowedArgs cfg = None ->
         deniedArgs cfg = None ->
         fst (validateCommand (before ++ cfg :: after) baseCommand args) = None).
Proof.
  split.
  - intros allowedCommands baseCommand args H. unfold validateCommand.
    fold (named baseCommand). now rewrite (find_unlisted _ _ H).
  - intros before after cfg baseCommand args Hb Hc Ha Hd.
    rewrite (validateCommand_rule _ cfg _ _ (find_first _ _ _ _ Hb Hc)).
    now rewrite Ha, Hd.
Qed.

(** C2 on the compiled-in table: [rm] is not listed, [ls] is listed bare. *)
Lemma validateCommand_unlisted_and_bare_witness :
  fst (validateCommand DEFAULT_ALLOWED_COMMANDS "rm" ["-rf"; "/"]) =
    Some "Command 'rm' is not in the allowed whitelist."
  /\ fst (validateCommand DEFAULT_ALLOWED_COMMANDS "ls" ["|"; "grep"]) = None.
Proof.
  split.
  - apply (proj1 validateCommand_unlisted_and_bare DEFAULT_ALLOWED_COMMANDS "rm").
    repeat constructor; discriminate.
  - apply (proj2 validateCommand_unlisted_and_bare [] (tl DEFAULT_ALLOWED_COMMANDS)
             (only "ls") "ls"); try reflexivity. constructor.
Defined.

(** A record whose [allowedArgs] is there but empty is another matter: the
    empty array is truthy, the loop runs and no argument can pass. *)
Example validateCommand_empty_allow_list :
  fst (validateCommand
         [{| command := "ls"; allowedArgs := Some []; deniedArgs := None |}]
         "ls" ["-la"])
  = Some "Argument '-la' for command 'ls' is not allowed.".
Proof. reflexivity. Qed.

(** C10: a listed program with no argument at all is accepted, whatever the
    matchers of its record. *)
Theorem validateCommand_no_arguments :
  forall (allowedCommands : list AllowedCommand) (baseCommand : string),
    (exists c, In c allowedCommands /\ command c = baseCommand) ->
    fst (validateCommand allowedCommands baseCommand []) = None.
Proof.
  intros allowedCommands baseCommand H.
  destruct (find_listed _ _ H) as [cfg E].
  rewrite (validateCommand_rule _ cfg _ _ E). simpl.
  now destruct (present (allowedArgs cfg) || present (deniedArgs cfg)).
Qed.

Lemma validateCommand_no_arguments_witness :
  fst (validateCommand DEFAULT_ALLOWED_COMMANDS "npm" []) = None.
Proof.
  apply validateCommand_no_arguments. exists npm. split; [|reflexivity].
  unfold DEFAULT_ALLOWED_COMMANDS. apply in_or_app. right. left. reflexivity.
Defined.

(** ** Patterns without the [g] and the [y] flag

    Such a pattern is not changed by [test], so a record that holds no other
    pattern answers the same for an argument whatever was tested before. *)

Definition flagless (m : matcher) : bool :=
  match m with
  | Literal _ => true
  | Pattern r => negb (RegExp.global r || RegExp.sticky r)
  end.

Definition flagless_field (field : option (list matcher)) : bool :=
  match field with
  | Some l => forallb flagless l
  | None => true
  end.

Definition flagless_record (cfg : AllowedCommand) : bool :=
  flagless_field (allowedArgs cfg) && flagless_field (deniedArgs cfg).

(** What a matcher answers for an argument as it stands. *)
Definition matches_now (arg : string) (m : matcher) : bool := fst (matches arg m).

Lemma test_flagless (r : RegExp.object) (s : string) :
  RegExp.global r || RegExp.sticky r = false ->
  snd (RegExp.test r s) = r.
Proof.
  intros H. unfold RegExp.test. rewrite H. cbn zeta.
  now destruct (if Nat.ltb (String.length s) 0 then None
                else if RegExp.sticky r then RegExp.regExpMatcher r s 0
                else RegExp.scan (RegExp.regExpMatcher r s) (String.length s - 0) 0).
Qed.

Lemma matches_flagless (arg : string) (m : matcher) :
  flagless m = true -> snd (matches arg m) = m.
Proof.
  destruct m as [s|r]; [reflexivity|]. simpl. intros H.
  apply negb_true_iff in H. pose proof (test_flagless r arg H) as T.
  destruct (RegExp.test r arg) as [found r']. simpl in *. now subst.
Qed.

Lemma some_matches_flagless (arg : string) (l : list matcher) :
  forallb flagless l = true ->
  some_matches arg l = (existsb (matches_now arg) l, l).
Proof.
  induction l as [|m l IH]; intros H; [reflexivity|].
  simpl in H. apply andb_true_iff in H as [Hm Hl]. simpl.
  pose proof (matches_flagless arg m Hm) as E. unfold matches_now at 1.
  destruct (matches arg m) as [found m']. simpl in *. subst m'.
  destruct found; [reflexivity|]. now rewrite (IH Hl).
Qed.

(** An argument goes through the loop body untouched when it is not denied
    and the allow check lets it pass. *)
Definition passes (cfg : AllowedCommand) (arg : string) : Prop :=
  isDenied cfg arg = false /\ isAllowedArg cfg arg = true.

(** The value the loop body gives for one argument: the deny check first. *)
Lemma check_arg_fst (cfg : AllowedCommand) (baseCommand arg : string) :
  fst (check_arg cfg baseCommand arg) =
  if isDenied cfg arg then Some (denied_message arg baseCommand)
  else if negb (isAllowedArg cfg arg) then Some (not_allowed_message arg baseCommand)
       else None.
Proof.
  unfold check_arg, isDenied, isAllowedArg.
  destruct (deniedArgs cfg) as [denied|].
  - destruct (some_matches arg denied) as [d denied']. simpl.
    destruct d; [reflexivity|]. simpl.
    destruct (allowedArgs cfg) as [allowed|]; [|reflexivity].
    destruct (some_matches arg allowed) as [a allowed']. simpl.
    now destruct a.
  - destruct (allowedArgs cfg) as [allowed|]; [|reflexivity].
    destruct (some_matches arg allowed) as [a allowed']. simpl.
    now destruct a.
Qed.

Lemma check_arg_flagless (cfg : AllowedCommand) (baseCommand arg : string) :
  flagless_record cfg = true ->
  snd (check_arg cfg baseCommand arg) = cfg.
Proof.
  destruct cfg as [name allowed denied]. unfold flagless_record, check_arg.
  cbn [allowedArgs deniedArgs flagless_field]. intros H.
  apply andb_true_iff in H as [Ha Hd].
  destruct denied as [denied|]; destruct allowed as [allowed|];
    cbn [flagless_field] in *;
    rewrite ?(some_matches_flagless arg denied Hd);
    unfold with_denied; cbn [allowedArgs deniedArgs command fst snd];
    try (destruct (existsb (matches_now arg) denied); [reflexivity|]);
    rewrite ?(some_matches_flagless arg allowed Ha);
    unfold with_allowed; cbn [allowedArgs deniedArgs command fst snd];
    try (destruct (existsb (matches_now arg) allowed));
    reflexivity.
Qed.

Lemma check_args_cons (cfg : AllowedCommand) (baseCommand arg : string)
  (rest : list string) :
  flagless_record cfg = true ->
  fst (check_args cfg baseCommand (arg :: rest)) =
  match fst (check_arg cfg baseCommand arg) with
  | Some message => Some message
  | None => fst (check_args cfg baseCommand rest)
  end.
Proof.
  intros H. pose proof (check_arg_flagless cfg baseCommand arg H) as E.
  cbn [check_args]. destruct (check_arg cfg baseCommand arg) as [[message|] cfg'];
    simpl in *; [reflexivity | now subst].
Qed.

Lemma check_args_flagless (cfg : AllowedCommand) (baseCommand : string)
  (args : list string) :
  flagless_record cfg = true ->
  snd (check_args cfg baseCommand args) = cfg.
Proof.
  intros H. induction args as [|a args IH]; [reflexivity|].
  pose proof (check_arg_flagless cfg baseCommand a H) as E.
  cbn [check_args]. destruct (check_arg cfg baseCommand a) as [[message|] cfg'];
    simpl in *; subst; [reflexivity | exact IH].
Qed.

Lemma check_arg_passes (cfg : AllowedCommand) (baseCommand arg : string) :
  passes cfg arg -> fst (check_arg cfg baseCommand arg) = None.
Proof. intros [Hd Ha]. rewrite check_arg_fst. now rewrite Hd, Ha. Qed.

Lemma check_arg_denied (cfg : AllowedCommand) (baseCommand arg : string) :
  isDenied cfg arg = true ->
  fst (check_arg cfg baseCommand arg) = Some (denied_message arg baseCommand).
Proof. intros Hd. rewrite check_arg_fst. now rewrite Hd. Qed.

Lemma check_arg_fails (cfg : AllowedCommand) (baseCommand arg : string) :
  ~ passes cfg arg ->
  fst (check_arg cfg baseCommand arg) =
  Some (if isDenied cfg arg then denied_message arg baseCommand
        else not_allowed_message arg baseCommand).
Proof.
  intros H. rewrite check_arg_fst. unfold passes in H.
  destruct (isDenied cfg arg); [reflexivity|].
  destruct (isAllowedArg cfg arg); [|reflexivity].
  exfalso. apply H. split; reflexivity.
Qed.

Lemma check_args_skip (cfg : AllowedCommand) (baseCommand : string)
  (pre rest : list string) :
  flagless_record cfg = true ->
  Forall (passes cfg) pre ->
  fst (check_args cfg baseCommand (pre ++ rest)) = fst (check_args cfg baseCommand rest).
Proof.
  intros F. induction 1 as [|a pre Ha _ IH]; [reflexivity|].
  cbn [app]. rewrite (check_args_cons _ _ _ _ F).
  now rewrite (check_arg_passes _ _ _ Ha).
Qed.

Lemma check_args_rejects (cfg : AllowedCommand) (baseCommand arg : string)
  (args : list string) :
  flagless_record cfg = true ->
  In arg args -> isDenied cfg arg = true ->
  fst (check_args cfg baseCommand args) <> None.
Proof.
  intros F. induction args as [|a args IH]; intros Hin Hd; [contradiction|].
  rewrite (check_args_cons _ _ _ _ F).
  destruct (fst (check_arg cfg baseCommand a)) eqn:E; [discriminate|].
  destruct Hin as [-> | Hin]; [|now apply IH].
  rewrite (check_arg_denied _ _ _ Hd) in E. discriminate.
Qed.

Lemma check_args_first_failure (cfg : AllowedCommand) (baseCommand arg : string)
  (pre post : list string) :
  flagless_record cfg = true ->
  Forall (passes cfg) pre ->
  ~ passes cfg arg ->
  fst (check_args cfg baseCommand (pre ++ arg :: post)) =
  Some (if isDenied cfg arg then denied_message arg baseCommand
        else not_allowed_message arg baseCommand).
Proof.
  intros F Hpre Hfail. rewrite (check_args_skip _ _ _ _ F Hpre).
  rewrite (check_args_cons _ _ _ _ F). now rewrite (check_arg_fails _ _ _ Hfail).
Qed.

Lemma present_when_failing (cfg : AllowedCommand) (arg : string) :
  ~ passes cfg arg ->
  present (allowedArgs cfg) || present (deniedArgs cfg) = true.
Proof.
  intros H. unfold passes, isDenied, isAllowedArg in H.
  destruct (allowedArgs cfg); [reflexivity|].
  destruct (deniedArgs cfg); [reflexivity|].
  exfalso. apply H. split; reflexivity.
Qed.

(** [/a/g], a pattern that keeps its place between two tests. *)
Definition re_a_global : matcher :=
  Pattern (RegExp.regexp (RegExp.Char "a") true false).

(** C1, as stated, fails on the compiled-in table: [publish] is denied for
    [npm], yet with an earlier argument that no allow matcher accepts the
    call returns over that argument, with the other message.  It fails as
    well for a denied pattern with the [g] flag: the first call rejects the
    argument and leaves the pattern at the end of its match, so the same
    call made again accepts it. *)
Lemma denied_argument_not_always_named :
  fst (validateCommand DEFAULT_ALLOWED_COMMANDS "npm" ["|"; "publish"])
    = Some "Argument '|' for command 'npm' is not allowed."
  /\ isDenied npm "publish" = true
  /\ ~ (forall (allowedCommands : list AllowedCommand) (cfg : AllowedCommand)
               (baseCommand arg : string) (args : list string),
           find (named baseCommand) allowedCommands = Some cfg ->
           In arg args ->
           isDenied cfg arg = true ->
           fst (validateCommand allowedCommands baseCommand args) =
           Some (denied_message arg baseCommand))
  /\ fst (validateCommand
            [{| command := "echo"; allowedArgs := None;
                deniedArgs := Some [re_a_global] |}] "echo" ["a"])
     = Some "Argument 'a' for command 'echo' is explicitly denied."
  /\ fst (validateCommand
            (snd (validateCommand
                    [{| command := "echo"; allowedArgs := None;
                        deniedArgs := Some [re_a_global] |}] "echo" ["a"]))
            "echo" ["a"])
     = None.
Proof.
  split; [vm_compute; reflexivity|]. split; [vm_compute; reflexivity|].
  split; [|split; vm_compute; reflexivity].
  intros H.
  specialize (H DEFAULT_ALLOWED_COMMANDS npm "npm" "publish" ["|"; "publish"]).
  assert (E : fst (validateCommand DEFAULT_ALLOWED_COMMANDS "npm" ["|"; "publish"])
              = Some (not_allowed_message "|" "npm")) by (vm_compute; reflexivity).
  rewrite E in H.
  assert (F : Some (not_allowed_message "|" "npm")
              = Some (denied_message "publish" "npm")).
  { apply H; [vm_compute; reflexivity | simpl; auto | vm_compute; reflexivity]. }
  vm_compute in F. discriminate.
Qed.

(** C1, amended: for a record none of whose patterns carries the [g] or the
    [y] flag, when an argument matches a denied matcher the call is
    rejected; the deny check of an argument comes before its allow check,
    so when every argument before it passes both checks the call returns at
    once with the explicitly-denied message that quotes this argument and
    the program, whether or not an allow matcher accepts it and whatever
    follows it; and when an earlier argument fails a check, the call ends
    at the first such argument, with the message of the check it fails. *)
Theorem denied_argument_rejects :
  forall (before after : list AllowedCommand) (cfg : AllowedCommand)
         (baseCommand : string) (denied : list matcher)
         (pre post : list string) (arg : string),
    Forall (fun c => command c <> baseCommand) before ->
    command cfg = baseCommand ->
    flagless_record cfg = true ->
    deniedArgs cfg = Some denied ->
    existsb (matches_now arg) denied = true ->
    fst (validateCommand (before ++ cfg :: after) baseCommand (pre ++ arg :: post))
    <> None
    /\ (Forall (passes cfg) pre ->
        fst (validateCommand (before ++ cfg :: after) baseCommand (pre ++ arg :: post))
        = Some ("Argument '" ++ arg ++ "' for command '" ++ baseCommand
                ++ "' is explicitly denied."))
    /\ (forall (earlier between : list string) (failing : string),
           pre = (earlier ++ failing :: between)%list ->
           Forall (passes cfg) earlier ->
           ~ passes cfg failing ->
           fst (validateCommand (before ++ cfg :: after) baseCommand
                  (pre ++ arg :: post))
           = Some (if isDenied cfg failing
                   then "Argument '" ++ failing ++ "' for command '" ++ baseCommand
                        ++ "' is explicitly denied."
                   else "Argument '" ++ failing ++ "' for command '" ++ baseCommand
                        ++ "' is not allowed.")).
Proof.
  intros before after cfg baseCommand denied pre post arg Hb Hc F Hd Hm.
  rewrite (validateCommand_rule _ cfg _ _ (find_first _ _ _ _ Hb Hc)).
  assert (Fd : forallb flagless denied = true).
  { unfold flagless_record in F. rewrite Hd in F.
    now apply andb_true_iff in F as [_ F]. }
  assert (D : isDenied cfg arg = true).
  { unfold isDenied. rewrite Hd. now rewrite (some_matches_flagless arg denied Fd). }
  rewrite Hd. replace (present (allowedArgs cfg) || present (Some denied)) with true
    by (simpl; now rewrite orb_true_r).
  split; [|split].
  - apply (check_args_rejects cfg baseCommand arg); [exact F | | exact D].
    apply in_or_app. right. left. reflexivity.
  - intros Hpre. rewrite (check_args_skip _ _ _ _ F Hpre).
    rewrite (check_args_cons _ _ _ _ F). now rewrite (check_arg_denied _ _ _ D).
  - intros earlier between failing -> He Hf. rewrite <- app_assoc. cbn [app].
    now apply check_args_first_failure.
Qed.

(** [eval] is denied for [npm] and also matches the package-name pattern of
    its allow list; after [run], which passes, it is what the call names. *)
Lemma denied_argument_rejects_witness :
  isAllowedArg npm "eval" = true
  /\ fst (validateCommand DEFAULT_ALLOWED_COMMANDS "npm" ["run"; "eval"; "|"]) <> None
  /\ fst (validateCommand DEFAULT_ALLOWED_COMMANDS "npm" ["run"; "eval"; "|"]) =
     Some "Argument 'eval' for command 'npm' is explicitly denied.".
Proof.
  split; [vm_compute; reflexivity|].
  assert (Hb : Forall (fun c => command c <> "npm")
                 (firstn 17 DEFAULT_ALLOWED_COMMANDS))
    by (repeat constructor; discriminate).
  pose proof (denied_argument_rejects (firstn 17 DEFAULT_ALLOWED_COMMANDS)
                (skipn 18 DEFAULT_ALLOWED_COMMANDS) npm "npm"
                (literals ["publish"; "unpublish"; "login"; "logout"; "adduser";
                           "owner"; "team"; "token"; "whoami"; "eval"; "exec"])
                ["run"] ["|"] "eval" Hb eq_refl eq_refl eq_refl eq_refl)
    as [H1 [H2 _]].
  split; [exact H1|].
  apply H2. repeat constructor.
Defined.

(** * Regular expressions: what a matcher does with its continuation *)

Lemma get_some_lt (s : string) (x : nat) (ch : ascii) :
  String.get x s = Some ch -> x < String.length s.
Proof.
  revert x. induction s as [|c s IH]; intros x H; [discriminate|].
  destruct x as [|x]; simpl in *; [lia|]. apply IH in H. lia.
Qed.

Lemma is_some_or_else (a b : option nat) :
  RegExp.is_some (RegExp.or_else a b) = RegExp.is_some a || RegExp.is_some b.
Proof. now destruct a. Qed.

Lemma is_some_stop_at (y z : nat) :
  RegExp.is_some (RegExp.stop_at y z) = Nat.eqb z y.
Proof. unfold RegExp.stop_at. now destruct (Nat.eqb z y). Qed.


Section Matchers.

Variable s : string.
Let len := String.length s.

(** A matcher is regular when it calls its continuation only with positions
    between the start and the end of [s], and succeeds exactly when the
    continuation accepts one of the positions it can stop at. *)
Definition regular (m : RegExp.matcher_fn) : Prop :=
  forall (x : nat) (k : nat -> option nat),
    x <= len ->
    (RegExp.is_some (m x k) = true ->
     exists y, x <= y <= len
               /\ RegExp.is_some (m x (RegExp.stop_at y)) = true
               /\ RegExp.is_some (k y) = true)
    /\ (forall y, RegExp.is_some (m x (RegExp.stop_at y)) = true ->
                  RegExp.is_some (k y) = true ->
                  RegExp.is_some (m x k) = true).

(** Two continuations that succeed on the same positions of [s] make the
    matcher succeed together. *)
Lemma regular_ext (m : RegExp.matcher_fn) (x : nat) (k k' : nat -> option nat) :
  regular m -> x <= len ->
  (forall y, x <= y <= len -> RegExp.is_some (k y) = RegExp.is_some (k' y)) ->
  RegExp.is_some (m x k) = RegExp.is_some (m x k').
Proof.
  intros R Hx E.
  assert (half : forall a b : nat -> option nat,
             (forall y, x <= y <= len -> RegExp.is_some (a y) = RegExp.is_some (b y)) ->
             RegExp.is_some (m x a) = true -> RegExp.is_some (m x b) = true).
  { intros a b Hab H. destruct (proj1 (R x a Hx) H) as [y [B [Hy Ha]]].
    apply (proj2 (R x b Hx) y Hy). now rewrite <- Hab. }
  destruct (RegExp.is_some (m x k)) eqn:A, (RegExp.is_some (m x k')) eqn:B;
    try reflexivity.
  - rewrite (half k k' E A) in B. discriminate.
  - rewrite (half k' k (fun y Hy => eq_sym (E y Hy)) B) in A. discriminate.
Qed.




(** One more iteration, refused when it consumed nothing. *)
Definition iterate (fuel : nat) (m : RegExp.matcher_fn) (x : nat)
  (k : nat -> option nat) : nat -> option nat :=
  fun y => if Nat.eqb y x then None else RegExp.repeat fuel m y k.

Lemma repeat_succ (fuel : nat) (m : RegExp.matcher_fn) (x : nat)
  (k : nat -> option nat) :
  RegExp.repeat (S fuel) m x k = RegExp.or_else (m x (iterate fuel m x k)) (k x).
Proof. reflexivity. Qed.

Lemma is_some_iterate (fuel : nat) (m : RegExp.matcher_fn) (x y : nat)
  (k : nat -> option nat) :
  RegExp.is_some (iterate fuel m x k y)
  = negb (Nat.eqb y x) && RegExp.is_some (RegExp.repeat fuel m y k).
Proof. unfold iterate. now destruct (Nat.eqb y x). Qed.



(** A matcher is local when its result depends on its continuation only at the
    positions of [s] from the start on. *)
Definition local_matcher (m : RegExp.matcher_fn) : Prop :=
  forall (x : nat) (k k' : nat -> option nat),
    x <= len ->
    (forall y, x <= y <= len -> k y = k' y) ->
    m x k = m x k'.

Lemma char_matcher_local (ok : ascii -> bool) :
  local_matcher (RegExp.char_matcher s ok).
Proof.
  intros x k k' Hx E. unfold RegExp.char_matcher.
  destruct (String.get x s) as [ch|] eqn:G; [|reflexivity].
  pose proof (get_some_lt _ _ _ G) as L. fold len in L.
  destruct (ok ch); [|reflexivity]. apply E. lia.
Qed.

Lemma repeat_local (m : RegExp.matcher_fn) (fuel : nat) :
  local_matcher m -> local_matcher (RegExp.repeat fuel m).
Proof.
  intros L. induction fuel as [|fuel IH]; intros x k k' Hx E.
  - simpl. apply E. lia.
  - rewrite !repeat_succ. rewrite (E x) by lia. f_equal.
    apply L; [exact Hx|]. intros y By. unfold iterate.
    destruct (Nat.eqb y x); [reflexivity|].
    apply IH; [lia|]. intros z Bz. apply E. lia.
Qed.

Lemma compile_local (r : RegExp.pattern) : local_matcher (RegExp.compile s r).
Proof.
  induction r as [ |ch|negated items| | | |r1 IH1 r2 IH2|r1 IH1 r2 IH2|r IH|r IH];
    simpl.
  - intros x k k' Hx E. apply E. lia.
  - apply char_matcher_local.
  - apply char_matcher_local.
  - apply char_matcher_local.
  - intros x k k' Hx E. destruct (Nat.eqb x 0); [apply E; lia | reflexivity].
  - intros x k k' Hx E.
    destruct (Nat.eqb x (String.length s)); [apply E; lia | reflexivity].
  - intros x k k' Hx E. apply IH1; [exact Hx|]. intros y By.
    apply IH2; [lia|]. intros z Bz. apply E. lia.
  - intros x k k' Hx E. now rewrite (IH1 x k k' Hx E), (IH2 x k k' Hx E).
  - now apply repeat_local.
  - intros x k k' Hx E. apply IH; [exact Hx|]. intros y By.
    apply repeat_local; [exact IH | lia |]. intros z Bz. apply E. lia.
Qed.

(** An iteration that consumed nothing is refused, so each one moves forward
    and the fuel of [RegExp.compile], the length of [s], is never used up:
    more fuel gives the same answer. *)
Lemma repeat_fuel_enough (m : RegExp.matcher_fn) :
  regular m -> local_matcher m ->
  forall (fuel x : nat) (k : nat -> option nat),
    x <= len -> len - x <= fuel ->
    RegExp.repeat (S fuel) m x k = RegExp.repeat fuel m x k.
Proof.
  intros R L. induction fuel as [|fuel IH]; intros x k Hx Hf.
  - rewrite repeat_succ. simpl.
    assert (E : m x (iterate 0 m x k) = None).
    { destruct (m x (iterate 0 m x k)) as [e|] eqn:F; [|reflexivity].
      assert (S1 : RegExp.is_some (m x (iterate 0 m x k)) = true) by now rewrite F.
      destruct (proj1 (R x _ Hx) S1) as [y [By [_ Hk]]].
      rewrite is_some_iterate in Hk. assert (y = x) by lia. subst y.
      rewrite Nat.eqb_refl in Hk. discriminate. }
    now rewrite E.
  - rewrite (repeat_succ (S fuel)), (repeat_succ fuel). f_equal.
    apply L; [exact Hx|]. intros y By. unfold iterate.
    destruct (Nat.eqb y x) eqn:E; [reflexivity|].
    apply Nat.eqb_neq in E. apply IH; lia.
Qed.

Lemma repeat_fuel_adequate (m : RegExp.matcher_fn) :
  regular m -> local_matcher m ->
  forall (extra x : nat) (k : nat -> option nat),
    x <= len ->
    RegExp.repeat (len + extra) m x k = RegExp.repeat len m x k.
Proof.
  intros R L. induction extra as [|extra IH]; intros x k Hx.
  - now rewrite Nat.add_0_r.
  - rewrite Nat.add_succ_r, repeat_fuel_enough by (auto; lia). now apply IH.
Qed.

End Matchers.

(** ** What [test] answers *)

Lemma scan_is_some (m : nat -> option nat) (fuel x : nat) :
  RegExp.is_some (RegExp.scan m fuel x) = true <->
  exists i, x <= i <= x + fuel /\ RegExp.is_some (m i) = true.
Proof.
  revert x. induction fuel as [|fuel IH]; intros x; simpl.
  - destruct (m x) as [e|] eqn:E; simpl.
    + split; [intros _; exists x; rewrite E; split; [lia | reflexivity] | reflexivity].
    + split; [discriminate|]. intros [i [B H]].
      assert (i = x) by lia. subst i. rewrite E in H. discriminate.
  - destruct (m x) as [e|] eqn:E; simpl.
    + split; [intros _; exists x; rewrite E; split; [lia | reflexivity] | reflexivity].
    + rewrite IH. split.
      * intros [i [B H]]. exists i. split; [lia | exact H].
      * intros [i [B H]]. exists i. split; [|exact H].
        destruct (Nat.eq_dec i x) as [->|]; [rewrite E in H; discriminate | lia].
Qed.


Section Test.

Variable r : RegExp.object.
Variable s : string.





End Test.

(** ** The patterns of the fragment *)


(** What a pattern with no flag answers: a search from 0. *)
Definition search (p : RegExp.pattern) (s : string) : bool :=
  matches_now s (regex p).

Lemma search_scan (p : RegExp.pattern) (s : string) :
  search p s = RegExp.is_some (RegExp.scan (RegExp.exec p s) (String.length s) 0).
Proof.
  unfold search, matches_now, regex, matches, RegExp.test, RegExp.regexp.
  cbn [RegExp.global RegExp.sticky RegExp.regExpMatcher orb Nat.ltb Nat.leb].
  rewrite Nat.sub_0_r.
  now destruct (RegExp.scan (RegExp.exec p s) (String.length s) 0).
Qed.


(** A pattern that starts with [^] is only tried at the first position. *)
Lemma search_bol (p : RegExp.pattern) (s : string) :
  search (RegExp.Seq RegExp.Bol p) s = RegExp.is_some (RegExp.exec p s 0).
Proof.
  rewrite search_scan.
  destruct (RegExp.is_some (RegExp.exec p s 0)) eqn:E.
  - apply scan_is_some. exists 0. split; [lia|]. exact E.
  - destruct (RegExp.is_some (RegExp.scan _ (String.length s) 0)) eqn:F; [|reflexivity].
    apply scan_is_some in F as [i [B H]]. unfold RegExp.exec in H.
    cbn [RegExp.compile] in H. destruct i as [|i]; [|discriminate].
    cbn [Nat.eqb] in H. unfold RegExp.exec in E. congruence.
Qed.

(** Between [^] and [$] the pattern has to match the whole of [s]. *)
Lemma search_anchored (p : RegExp.pattern) (s : string) :
  search (RegExp.Seq RegExp.Bol (RegExp.Seq p RegExp.Eol)) s = RegExp.full_match p s.
Proof. now rewrite search_bol. Qed.

(** [/rm/], with no anchor. *)
Definition re_rm : RegExp.pattern := RegExp.Seq (RegExp.Char "r") (RegExp.Char "m").



(** * The process runner *)

(** The chunks of [l], one after the other. *)
Definition joined (l : list string) : string := fold_right append EmptyString l.

Lemma joined_app (a b : list string) : joined (a ++ b) = joined a ++ joined b.
Proof.
  induction a as [|x a IH]; simpl; [reflexivity|].
  now rewrite IH, append_assoc.
Qed.

Lemma feed_snoc (maxBuffer : nat) (chunks : list string) (data : string) :
  Runner.feed maxBuffer (chunks ++ [data]) =
  Runner.on_data maxBuffer (fst (Runner.feed maxBuffer chunks))
    (snd (Runner.feed maxBuffer chunks)) data.
Proof. unfold Runner.feed. now rewrite fold_left_app. Qed.

(** What a stream holds after any chunks: the chunks received while the
    buffer was shorter than the limit, whole, then the marker when one more
    chunk came. *)
Lemma feed_shape (maxBuffer : nat) (chunks : list string) :
  exists n,
    n <= List.length chunks
    /\ Runner.feed maxBuffer chunks =
       (joined (firstn n chunks)
          ++ (if Nat.ltb n (List.length chunks) then Runner.marker else EmptyString),
        Nat.ltb n (List.length chunks))
    /\ (n < List.length chunks -> maxBuffer <= String.length (joined (firstn n chunks)))
    /\ (forall m, m < n -> String.length (joined (firstn m chunks)) < maxBuffer).
Proof.
  induction chunks as [|data chunks IH] using rev_ind.
  - exists 0. simpl. repeat split; try lia.
  - destruct IH as [n [Hn [E [Hcap Hlow]]]].
    rewrite feed_snoc, E. cbn [fst snd]. rewrite length_app. cbn [List.length].
    destruct (Nat.ltb n (List.length chunks)) eqn:T.
    + (* the marker is there already: nothing changes *)
      apply Nat.ltb_lt in T. exists n.
      assert (T' : Nat.ltb n (List.length chunks + 1) = true) by (apply Nat.ltb_lt; lia).
      rewrite T', firstn_app.
      replace (n - List.length chunks) with 0 by lia.
      cbn [firstn]. rewrite app_nil_r.
      unfold Runner.on_data.
      assert (F : Nat.ltb (String.length (joined (firstn n chunks) ++ Runner.marker))
                    maxBuffer = false).
      { apply Nat.ltb_ge. rewrite length_append. specialize (Hcap T). lia. }
      rewrite F. cbn [negb]. repeat split; try lia.
      intros m Hm. rewrite firstn_app. replace (m - List.length chunks) with 0 by lia.
      cbn [firstn]. rewrite app_nil_r. now apply Hlow.
    + apply Nat.ltb_ge in T. assert (n = List.length chunks) by lia. subst n.
      rewrite firstn_all, append_nil_r. unfold Runner.on_data.
      destruct (Nat.ltb (String.length (joined chunks)) maxBuffer) eqn:L.
      * (* below the limit: the chunk is taken whole *)
        apply Nat.ltb_lt in L. exists (List.length chunks + 1).
        rewrite Nat.ltb_irrefl, append_nil_r.
        replace (List.length chunks + 1) with (List.length (chunks ++ [data]))
          by (rewrite length_app; simpl; lia).
        rewrite firstn_all, joined_app. simpl. rewrite append_nil_r.
        rewrite length_app. cbn [List.length].
        repeat split; try lia.
        intros m Hm. rewrite firstn_app.
        destruct (Nat.eq_dec m (List.length chunks)) as [->|Hne].
        -- rewrite firstn_all, Nat.sub_diag. cbn [firstn]. now rewrite app_nil_r.
        -- replace (m - List.length chunks) with 0 by lia.
           cbn [firstn]. rewrite app_nil_r. apply Hlow. lia.
      * (* at the limit: the chunk is dropped, the marker goes in *)
        apply Nat.ltb_ge in L. exists (List.length chunks).
        assert (T' : Nat.ltb (List.length chunks) (List.length chunks + 1) = true)
          by (apply Nat.ltb_lt; lia).
        rewrite T', firstn_app, firstn_all, Nat.sub_diag.
        cbn [firstn negb]. rewrite app_nil_r.
        repeat split; try lia.
        intros m Hm. rewrite firstn_app. replace (m - List.length chunks) with 0 by lia.
        cbn [firstn]. rewrite app_nil_r. apply Hlow. lia.
Qed.

(** Once the flag of a stream is set its buffer is at the limit or over it. *)
Lemma feed_truncated_full (maxBuffer : nat) (chunks : list string) :
  snd (Runner.feed maxBuffer chunks) = true ->
  maxBuffer <= String.length (fst (Runner.feed maxBuffer chunks)).
Proof.
  destruct (feed_shape maxBuffer chunks) as [n [_ [E [Hcap _]]]].
  rewrite E. cbn [fst snd]. intros T. apply Nat.ltb_lt in T.
  rewrite length_append. specialize (Hcap T). lia.
Qed.

Lemma on_data_truncated (maxBuffer : nat) (buffer data : string) :
  maxBuffer <= String.length buffer ->
  Runner.on_data maxBuffer buffer true data = (buffer, true).
Proof.
  intros H. unfold Runner.on_data.
  apply Nat.ltb_ge in H. now rewrite H.
Qed.

(** The truncated state is final: later chunks change neither the buffer nor
    the flag. *)
Lemma feed_truncated_final (maxBuffer : nat) (chunks more : list string) :
  snd (Runner.feed maxBuffer chunks) = true ->
  Runner.feed maxBuffer (chunks ++ more) = Runner.feed maxBuffer chunks.
Proof.
  intros T. induction more as [|data more IH] using rev_ind.
  - now rewrite app_nil_r.
  - rewrite app_assoc, feed_snoc, IH.
    pose proof (feed_truncated_full _ _ T) as F.
    destruct (Runner.feed maxBuffer chunks) as [buffer truncated].
    simpl in *. subst truncated. now apply on_data_truncated.
Qed.

Section RunnerFacts.

Variables timeoutMs maxBuffer : nat.

Let spawn := Runner.spawnAsync timeoutMs maxBuffer.

Lemma spawn_snoc (events : list Runner.event) (e : Runner.event) :
  spawn (events ++ [e]) = Runner.handle timeoutMs maxBuffer (spawn events) e.
Proof. unfold spawn, Runner.spawnAsync, Runner.run. now rewrite fold_left_app. Qed.

Lemma spawn_app (events more : list Runner.event) :
  spawn (events ++ more) = Runner.run timeoutMs maxBuffer (spawn events) more.
Proof. unfold spawn, Runner.spawnAsync, Runner.run. now rewrite fold_left_app. Qed.

(** Each stream sees its own chunks only, in the order they came. *)
Lemma spawn_stdout (events : list Runner.event) :
  (Runner.stdout (spawn events), Runner.stdoutTruncated (spawn events))
  = Runner.feed maxBuffer (Runner.stdout_chunks events).
Proof.
  induction events as [|e events IH] using rev_ind; [reflexivity|].
  rewrite spawn_snoc. unfold Runner.stdout_chunks in *. rewrite flat_map_app.
  destruct e; simpl; rewrite ?app_nil_r; try exact IH.
  - rewrite feed_snoc, <- IH. cbn [fst snd].
    now destruct (Runner.on_data maxBuffer _ _ data).
  - destruct (Runner.on_data maxBuffer _ _ data). exact IH.
  - destruct (Runner.timer (spawn events)); exact IH.
Qed.

Lemma spawn_stderr (events : list Runner.event) :
  (Runner.stderr (spawn events), Runner.stderrTruncated (spawn events))
  = Runner.feed maxBuffer (Runner.stderr_chunks events).
Proof.
  induction events as [|e events IH] using rev_ind; [reflexivity|].
  rewrite spawn_snoc. unfold Runner.stderr_chunks in *. rewrite flat_map_app.
  destruct e; simpl; rewrite ?app_nil_r; try exact IH.
  - destruct (Runner.on_data maxBuffer _ _ data). exact IH.
  - rewrite feed_snoc, <- IH. cbn [fst snd].
    now destruct (Runner.on_data maxBuffer _ _ data).
  - destruct (Runner.timer (spawn events)); exact IH.
Qed.

(** What holds of the timer, the flag and the promise after any events. *)
Definition settled_right (st : Runner.state) : Prop :=
  (Runner.timer st = true -> Runner.promise st = None /\ Runner.timedOut st = false)
  /\ (Runner.timer st = false -> Runner.promise st <> None)
  /\ (Runner.timedOut st = true ->
      Runner.promise st = Some (Runner.Rejected (Runner.TimedOut timeoutMs))).

Lemma handle_settled_right (st : Runner.state) (e : Runner.event) :
  settled_right st -> settled_right (Runner.handle timeoutMs maxBuffer st e).
Proof.
  intros [I1 [I2 I3]]. unfold settled_right. destruct e; simpl.
  - destruct (Runner.on_data maxBuffer _ _ data). simpl. auto.
  - destruct (Runner.on_data maxBuffer _ _ data). simpl. auto.
  - destruct (Runner.timer st) eqn:T; [|rewrite T; auto].
    destruct (I1 eq_refl) as [P _]. simpl. rewrite P. simpl.
    repeat split; try discriminate.
  - repeat split; try discriminate.
    + intros _. destruct (Runner.timedOut st) eqn:TO; simpl.
      * rewrite (I3 eq_refl). discriminate.
      * destruct (Runner.promise st); discriminate.
    + intros TO. rewrite TO. simpl. now apply I3.
  - repeat split; try discriminate.
    + intros _. destruct (Runner.timedOut st) eqn:TO; simpl.
      * rewrite (I3 eq_refl). discriminate.
      * destruct code as [[| |]|]; destruct (Runner.promise st); discriminate.
    + intros TO. rewrite TO. simpl. now apply I3.
Qed.

Lemma run_settled_right (events : list Runner.event) (st : Runner.state) :
  settled_right st -> settled_right (Runner.run timeoutMs maxBuffer st events).
Proof.
  revert st. induction events as [|e events IH]; intros st H; [exact H|].
  simpl. apply IH. now apply handle_settled_right.
Qed.

Lemma spawn_settled_right (events : list Runner.event) :
  settled_right (spawn events).
Proof.
  apply run_settled_right. repeat split; try discriminate.
Qed.

(** A settled promise keeps its outcome. *)
Lemma handle_keeps (st : Runner.state) (e : Runner.event) (o : Runner.settlement) :
  Runner.promise st = Some o ->
  Runner.promise (Runner.handle timeoutMs maxBuffer st e) = Some o.
Proof.
  intros P. destruct e; simpl.
  - now destruct (Runner.on_data maxBuffer _ _ data).
  - now destruct (Runner.on_data maxBuffer _ _ data).
  - destruct (Runner.timer st); [simpl; now rewrite P | exact P].
  - destruct (Runner.timedOut st); simpl; now rewrite P.
  - destruct (Runner.timedOut st); simpl; [exact P|].
    destruct code as [[| |]|]; now rewrite P.
Qed.

Lemma run_keeps (events : list Runner.event) (st : Runner.state)
  (o : Runner.settlement) :
  Runner.promise st = Some o ->
  Runner.promise (Runner.run timeoutMs maxBuffer st events) = Some o.
Proof.
  revert st. induction events as [|e events IH]; intros st P; [exact P|].
  simpl. apply IH. now apply handle_keeps.
Qed.

(** The timer is due exactly as long as only data came. *)
Lemma spawn_timer (events : list Runner.event) :
  Runner.timer (spawn events) = forallb Runner.is_data events.
Proof.
  induction events as [|e events IH] using rev_ind; [reflexivity|].
  rewrite spawn_snoc, forallb_app, <- IH.
  destruct e; cbn [forallb Runner.is_data Runner.handle];
    rewrite ?andb_true_r, ?andb_false_r; try reflexivity.
  - now destruct (Runner.on_data maxBuffer _ _ data).
  - now destruct (Runner.on_data maxBuffer _ _ data).
  - destruct (Runner.timer (spawn events)) eqn:T; [reflexivity | exact T].
Qed.

End RunnerFacts.

(** C7, as stated, fails: the length test comes before the chunk is added,
    so with a limit of 4 the chunks [abc] and [defgh] leave 8 characters in
    the buffer and no marker; a chunk that exactly fills the buffer adds no
    marker either, it comes with the next chunk only. *)
Lemma buffer_exceeds_limit :
  Runner.stdout (Runner.spawnAsync 1000 4
                   [Runner.StdoutData "abc"; Runner.StdoutData "defgh"]) = "abcdefgh"
  /\ String.length "abcdefgh" = 8
  /\ Runner.stdoutTruncated (Runner.spawnAsync 1000 4
                   [Runner.StdoutData "abc"; Runner.StdoutData "defgh"]) = false
  /\ Runner.feed 4 ["abcd"] = ("abcd", false)
  /\ Runner.feed 4 ["abcd"; "e"; "f"] = ("abcd" ++ Runner.marker, true).
Proof. repeat split; vm_compute; reflexivity. Qed.

(** C7, amended: each stream is fed by its own chunks only.  A chunk is
    added whole while the buffer is shorter than the limit, so the buffer
    may pass the limit by less than one chunk; once the buffer has reached
    the limit every later chunk is dropped, the first of them puts the
    marker in, once, and from then on neither the buffer nor the flag of
    that stream changes. *)
Theorem stream_capture_shape :
  forall (timeoutMs maxBuffer : nat) (events : list Runner.event),
    (Runner.stdout (Runner.spawnAsync timeoutMs maxBuffer events),
     Runner.stdoutTruncated (Runner.spawnAsync timeoutMs maxBuffer events))
    = Runner.feed maxBuffer (Runner.stdout_chunks events)
    /\ (Runner.stderr (Runner.spawnAsync timeoutMs maxBuffer events),
        Runner.stderrTruncated (Runner.spawnAsync timeoutMs maxBuffer events))
       = Runner.feed maxBuffer (Runner.stderr_chunks events)
    /\ (forall chunks : list string,
           exists n,
             n <= List.length chunks
             /\ Runner.feed maxBuffer chunks =
                (joined (firstn n chunks)
                   ++ (if Nat.ltb n (List.length chunks)
                       then Runner.marker else EmptyString),
                 Nat.ltb n (List.length chunks))
             /\ (n < List.length chunks ->
                 maxBuffer <= String.length (joined (firstn n chunks)))
             /\ (forall m, m < n ->
                 String.length (joined (firstn m chunks)) < maxBuffer))
    /\ (forall chunks more : list string,
           snd (Runner.feed maxBuffer chunks) = true ->
           Runner.feed maxBuffer (chunks ++ more) = Runner.feed maxBuffer chunks).
Proof.
  intros timeoutMs maxBuffer events.
  split; [apply spawn_stdout|]. split; [apply spawn_stderr|].
  split; [apply feed_shape | apply feed_truncated_final].
Qed.

(** The last part of C7 at a concrete run: after the marker, two more chunks
    of standard output, with standard error in between, change nothing. *)
Lemma stream_capture_shape_witness :
  Runner.feed 4 (["abcd"; "e"] ++ ["f"; "g"]) = Runner.feed 4 ["abcd"; "e"]
  /\ (Runner.stdout (Runner.spawnAsync 1000 4
        [Runner.StdoutData "abcd"; Runner.StderrData "x"; Runner.StdoutData "e"]),
      Runner.stdoutTruncated (Runner.spawnAsync 1000 4
        [Runner.StdoutData "abcd"; Runner.StderrData "x"; Runner.StdoutData "e"]))
     = ("abcd" ++ Runner.marker, true).
Proof.
  split.
  - apply (proj2 (proj2 (proj2 (stream_capture_shape 1000 4 [])))). reflexivity.
  - rewrite (proj1 (stream_capture_shape 1000 4 _)). reflexivity.
Defined.

(** C8: a call has an outcome as soon as an event other than data was
    delivered, and none before; the outcome, once there, is never replaced;
    when the timer fires the outcome is the timeout error, whatever the child
    does afterwards; and after a timeout the promise is never resolved. *)
Theorem one_outcome_timeout_wins :
  forall (timeoutMs maxBuffer : nat) (events more : list Runner.event),
    (Runner.promise (Runner.spawnAsync timeoutMs maxBuffer events) = None <->
     forallb Runner.is_data events = true)
    /\ (forall o : Runner.settlement,
           Runner.promise (Runner.spawnAsync timeoutMs maxBuffer events) = Some o ->
           Runner.promise (Runner.spawnAsync timeoutMs maxBuffer (events ++ more))
           = Some o)
    /\ (Runner.timer (Runner.spawnAsync timeoutMs maxBuffer events) = true ->
        Runner.promise
          (Runner.spawnAsync timeoutMs maxBuffer (events ++ Runner.TimerFires :: more))
        = Some (Runner.Rejected (Runner.TimedOut timeoutMs)))
    /\ (Runner.timedOut (Runner.spawnAsync timeoutMs maxBuffer events) = true ->
        Runner.promise (Runner.spawnAsync timeoutMs maxBuffer (events ++ more))
        = Some (Runner.Rejected (Runner.TimedOut timeoutMs))
        /\ forall out err : string,
             Runner.promise (Runner.spawnAsync timeoutMs maxBuffer (events ++ more))
             <> Some (Runner.Resolved out err)).
Proof.
  intros timeoutMs maxBuffer events more.
  pose proof (spawn_settled_right timeoutMs maxBuffer events) as [I1 [I2 I3]].
  pose proof (spawn_timer timeoutMs maxBuffer events) as T.
  assert (keep : forall o,
             Runner.promise (Runner.spawnAsync timeoutMs maxBuffer events) = Some o ->
             Runner.promise (Runner.spawnAsync timeoutMs maxBuffer (events ++ more))
             = Some o).
  { intros o P. rewrite spawn_app. now apply run_keeps. }
  split; [|split; [exact keep|split]].
  - rewrite <- T. split.
    + intros P. destruct (Runner.timer _) eqn:E; [reflexivity|].
      now destruct (I2 eq_refl).
    + intros E. now destruct (I1 E).
  - intros E. destruct (I1 E) as [P TO].
    rewrite spawn_app. cbn [Runner.run fold_left]. apply run_keeps.
    cbn [Runner.handle]. rewrite E. cbn [Runner.promise]. now rewrite P.
  - intros TO. assert (R := keep _ (I3 TO)). split; [exact R|].
    intros out err. rewrite R. discriminate.
Qed.

(** C8 on a run where the child closes with code 0 after the timer fired:
    the call fails with the timeout error. *)
Lemma one_outcome_timeout_wins_witness :
  Runner.promise
    (Runner.spawnAsync 1000 64
       ([Runner.StdoutData "partial"] ++ Runner.TimerFires
          :: [Runner.StdoutData "late"; Runner.OnClose (Some 0%Z)]))
  = Some (Runner.Rejected (Runner.TimedOut 1000)).
Proof.
  apply (proj1 (proj2 (proj2 (one_outcome_timeout_wins 1000 64
           [Runner.StdoutData "partial"]
           [Runner.StdoutData "late"; Runner.OnClose (Some 0%Z)])))).
  reflexivity.
Defined.

(** * Which inputs leave a quote open

    The inputs are described by their shape, apart from the scanner.  Inside
    a quote opened by [q] the text is made of characters other than [q] and
    the backslash, and of backslash pairs. *)

Definition is_quote (c : ascii) : Prop := c = dquote \/ c = squote.

Inductive quoted_body (q : ascii) : string -> Prop :=
| body_end : quoted_body q EmptyString
| body_char (c : ascii) (s : string) :
    c <> backslash -> c <> q -> quoted_body q s -> quoted_body q (String c s)
| body_pair (c : ascii) (s : string) :
    quoted_body q s -> quoted_body q (String backslash (String c s)).

(** Every quote that is opened is closed: plain characters, backslash pairs
    and whole quoted parts, with at most a lone backslash at the end. *)
Inductive quotes_closed : string -> Prop :=
| closed_end : quotes_closed EmptyString
| closed_dangling : quotes_closed (String backslash EmptyString)
| closed_pair (c : ascii) (s : string) :
    quotes_closed s -> quotes_closed (String backslash (String c s))
| closed_char (c : ascii) (s : string) :
    c <> backslash -> c <> dquote -> c <> squote ->
    quotes_closed s -> quotes_closed (String c s)
| closed_quoted (q : ascii) (body s : string) :
    is_quote q -> quoted_body q body -> quotes_closed s ->
    quotes_closed (String q (body ++ String q s)).

(** The quote [q] is opened and the input ends before it is closed. *)
Inductive quote_open (q : ascii) : string -> Prop :=
| open_here (body : string) :
    is_quote q -> quoted_body q body -> quote_open q (String q body)
| open_here_dangling (body : string) :
    is_quote q -> quoted_body q body ->
    quote_open q (String q (body ++ String backslash EmptyString))
| open_pair (c : ascii) (s : string) :
    quote_open q s -> quote_open q (String backslash (String c s))
| open_char (c : ascii) (s : string) :
    c <> backslash -> c <> dquote -> c <> squote ->
    quote_open q s -> quote_open q (String c s)
| open_quoted (q' : ascii) (body s : string) :
    is_quote q' -> quoted_body q' body -> quote_open q s ->
    quote_open q (String q' (body ++ String q' s)).

(** The quote the loop ends in depends on the quote and the flag it starts
    with only, not on the words collected. *)
Fixpoint final_quote (q : option ascii) (e : bool) (s : string) : option ascii :=
  match s with
  | EmptyString => q
  | String c rest =>
      if e then final_quote q false rest
      else if Ascii.eqb c backslash then final_quote q true rest
      else match q with
           | Some q0 =>
               if Ascii.eqb c q0 then final_quote None false rest
               else final_quote (Some q0) false rest
           | None =>
               if Ascii.eqb c dquote || Ascii.eqb c squote
               then final_quote (Some c) false rest
               else final_quote None false rest
           end
  end.

Lemma loop_quote (s : string) (st : state) :
  quote (loop st s) = final_quote (quote st) (escape st) s.
Proof.
  revert st. induction s as [|c s IH]; intros st; [reflexivity|].
  simpl. rewrite IH. unfold step.
  destruct (escape st) eqn:E; [reflexivity|].
  destruct (Ascii.eqb c backslash); [reflexivity|].
  destruct (quote st) as [q0|] eqn:Q.
  - destruct (Ascii.eqb c q0); reflexivity.
  - destruct (Ascii.eqb c dquote || Ascii.eqb c squote); [reflexivity|].
    destruct (is_space c); [|reflexivity].
    destruct (truthy (current st)); simpl; rewrite ?Q, ?E; reflexivity.
Qed.

Lemma is_quote_iff (c : ascii) :
  Ascii.eqb c dquote || Ascii.eqb c squote = true <-> is_quote c.
Proof.
  unfold is_quote. rewrite orb_true_iff, !Ascii.eqb_eq. reflexivity.
Qed.

Lemma is_quote_not_backslash (q : ascii) : is_quote q -> Ascii.eqb q backslash = false.
Proof. intros [-> | ->]; reflexivity. Qed.

Lemma final_quote_body (q : ascii) (body rest : string) :
  quoted_body q body ->
  final_quote (Some q) false (body ++ rest) = final_quote (Some q) false rest.
Proof.
  induction 1 as [|c s Hb Hq _ IH|c s _ IH]; simpl.
  - reflexivity.
  - apply Ascii.eqb_neq in Hb, Hq. now rewrite Hb, Hq.
  - exact IH.
Qed.

Lemma final_quote_quoted (q : ascii) (body rest : string) :
  is_quote q -> quoted_body q body ->
  final_quote None false (String q (body ++ String q rest)) = final_quote None false rest.
Proof.
  intros Hq Hb. cbn [final_quote].
  rewrite (is_quote_not_backslash q Hq), (proj2 (is_quote_iff q) Hq).
  rewrite (final_quote_body q body _ Hb). cbn [final_quote].
  now rewrite (is_quote_not_backslash q Hq), Ascii.eqb_refl.
Qed.

Lemma closed_final_quote (s : string) :
  quotes_closed s -> final_quote None false s = None.
Proof.
  induction 1 as [| |c s _ IH|c s Hb Hd Hs _ IH|q body s Hq Hbody _ IH].
  - reflexivity.
  - reflexivity.
  - exact IH.
  - simpl. apply Ascii.eqb_neq in Hb, Hd, Hs. now rewrite Hb, Hd, Hs.
  - now rewrite final_quote_quoted.
Qed.

Lemma open_final_quote (q : ascii) (s : string) :
  quote_open q s -> final_quote None false s = Some q.
Proof.
  induction 1 as [body Hq Hbody|body Hq Hbody|c s _ IH|c s Hb Hd Hs _ IH
                  |q' body s Hq Hbody _ IH].
  - cbn [final_quote].
    rewrite (is_quote_not_backslash q Hq), (proj2 (is_quote_iff q) Hq).
    pose proof (final_quote_body q body EmptyString Hbody) as F.
    now rewrite append_nil_r in F.
  - cbn [final_quote].
    rewrite (is_quote_not_backslash q Hq), (proj2 (is_quote_iff q) Hq).
    now rewrite final_quote_body.
  - exact IH.
  - simpl. apply Ascii.eqb_neq in Hb, Hd, Hs. now rewrite Hb, Hd, Hs.
  - now rewrite final_quote_quoted.
Qed.

(** The text after an opening quote: all of it inside the quote, or all of it
    but a last backslash, or a body, the closing quote and a rest. *)
Lemma inside_quote_shape (q : ascii) (n : nat) (s : string) :
  String.length s <= n ->
  quoted_body q s
  \/ (exists body, s = body ++ String backslash EmptyString /\ quoted_body q body)
  \/ (exists body rest, s = body ++ String q rest /\ quoted_body q body).
Proof.
  revert s. induction n as [|n IH]; intros s Hn.
  - destruct s; [left; constructor | simpl in Hn; lia].
  - destruct s as [|c s]; [left; constructor|]. simpl in Hn.
    destruct (Ascii.eqb_spec c backslash) as [->|Hb].
    + destruct s as [|c' s].
      * right. left. exists EmptyString. split; [reflexivity|constructor].
      * simpl in Hn. destruct n as [|n]; [lia|].
        assert (IH' : forall t, String.length t <= n ->
                   quoted_body q t
                   \/ (exists body, t = body ++ String backslash EmptyString
                                    /\ quoted_body q body)
                   \/ (exists body rest, t = body ++ String q rest
                                         /\ quoted_body q body)).
        { intros t Ht. apply IH. lia. }
        destruct (IH' s ltac:(lia)) as [H|[[body [-> H]]|[body [rest [-> H]]]]].
        -- left. now constructor.
        -- right. left. exists (String backslash (String c' body)).
           split; [reflexivity | now constructor].
        -- right. right. exists (String backslash (String c' body)), rest.
           split; [reflexivity | now constructor].
    + destruct (Ascii.eqb_spec c q) as [->|Hq].
      * right. right. exists EmptyString, s. split; [reflexivity|constructor].
      * destruct (IH s ltac:(lia)) as [H|[[body [-> H]]|[body [rest [-> H]]]]].
        -- left. now constructor.
        -- right. left. exists (String c body). split; [reflexivity | now constructor].
        -- right. right. exists (String c body), rest.
           split; [reflexivity | now constructor].
Qed.

Lemma final_quote_shape (n : nat) (s : string) :
  String.length s <= n ->
  (final_quote None false s = None -> quotes_closed s)
  /\ (forall q, final_quote None false s = Some q -> quote_open q s).
Proof.
  revert s. induction n as [|n IH]; intros s Hn.
  - destruct s; [|simpl in Hn; lia]. split; [constructor | discriminate].
  - destruct s as [|c s]; [split; [constructor | discriminate]|]. simpl in Hn.
    destruct (Ascii.eqb_spec c backslash) as [->|Hb].
    + destruct s as [|c' s]; [split; [constructor | discriminate]|].
      simpl in Hn. destruct (IH s ltac:(lia)) as [C O].
      split; [intros H | intros q H]; constructor; auto.
    + cbn [final_quote]. rewrite (proj2 (Ascii.eqb_neq _ _) Hb).
      destruct (Ascii.eqb c dquote || Ascii.eqb c squote) eqn:Q.
      * apply is_quote_iff in Q.
        destruct (inside_quote_shape c (String.length s) s (Nat.le_refl _))
          as [H|[[body [-> H]]|[body [rest [-> H]]]]].
        -- assert (F : final_quote (Some c) false s = Some c).
           { pose proof (final_quote_body c s EmptyString H) as F.
             now rewrite append_nil_r in F. }
           rewrite F. split; [discriminate|]. intros q E. injection E as <-.
           now constructor.
        -- rewrite (final_quote_body c body _ H). simpl.
           split; [discriminate|]. intros q E. injection E as <-.
           now constructor.
        -- rewrite (final_quote_body c body _ H). cbn [final_quote].
           rewrite (proj2 (Ascii.eqb_neq _ _) Hb), Ascii.eqb_refl.
           rewrite length_append in Hn. simpl in Hn.
           destruct (IH rest ltac:(lia)) as [C O].
           split; [intros E; apply closed_quoted | intros q E; apply open_quoted];
             auto.
      * apply orb_false_iff in Q as [Qd Qs]. apply Ascii.eqb_neq in Qd, Qs.
        destruct (IH s ltac:(lia)) as [C O].
        split; [intros E | intros q E]; constructor; auto.
Qed.

Lemma quote_open_is_quote (q : ascii) (s : string) : quote_open q s -> is_quote q.
Proof. induction 1; assumption. Qed.

Lemma parseArgs_cases (commandStr : string) :
  parseArgs commandStr =
  match final_quote None false commandStr with
  | Some q => Throw (unclosed_message q)
  | None =>
      Ok (if truthy (current (loop init commandStr))
          then push (args (loop init commandStr)) (current (loop init commandStr))
          else args (loop init commandStr))
  end.
Proof. unfold parseArgs, finish. now rewrite loop_quote. Qed.

(** C4: the call throws the unclosed-quote error that names the quote [q]
    exactly when [q] is opened in the input and the input ends before it is
    closed; it returns tokens exactly when every opened quote is closed; and
    every input is of one of the two kinds, so the call fails in no other
    way. *)
Theorem parseArgs_unclosed_quote :
  forall commandStr : string,
    (forall q : ascii,
        parseArgs commandStr
        = Throw ("Syntax error: Unclosed quote " ++ String q EmptyString)
        <-> quote_open q commandStr)
    /\ ((exists tokens, parseArgs commandStr = Ok tokens) <-> quotes_closed commandStr)
    /\ (quotes_closed commandStr
        \/ exists q, is_quote q /\ quote_open q commandStr).
Proof.
  intros commandStr. rewrite parseArgs_cases.
  pose proof (final_quote_shape _ commandStr (Nat.le_refl _)) as [C O].
  destruct (final_quote None false commandStr) as [q0|] eqn:F.
  - specialize (O q0 eq_refl). split; [|split].
    + intros q. split.
      * intros E. injection E as <-. exact O.
      * intros H. apply open_final_quote in H. rewrite F in H.
        injection H as <-. reflexivity.
    + split.
      * intros [tokens E]. discriminate.
      * intros H. apply closed_final_quote in H. congruence.
    + right. exists q0. split; [exact (quote_open_is_quote _ _ O) | exact O].
  - specialize (C eq_refl). split; [|split].
    + intros q. split.
      * discriminate.
      * intros H. apply open_final_quote in H. congruence.
    + split; [intros _; exact C | intros _; eauto].
    + left. exact C.
Qed.

(** The two unclosed inputs of the source's tests, and a closed one. *)
Lemma parseArgs_unclosed_quote_witness :
  parseArgs ("echo " ++ String dquote "hello")
    = Throw ("Syntax error: Unclosed quote " ++ String dquote EmptyString)
  /\ parseArgs "echo 'hello" = Throw "Syntax error: Unclosed quote '"
  /\ exists tokens, parseArgs "echo 'hello' x" = Ok tokens.
Proof.
  split; [|split].
  - apply (proj1 (parseArgs_unclosed_quote _)).
    do 5 (apply open_char; [discriminate ..|]).
    apply open_here; [left; reflexivity|].
    repeat (apply body_char; [discriminate ..|]). apply body_end.
  - apply (proj1 (parseArgs_unclosed_quote _) squote).
    do 5 (apply open_char; [discriminate ..|]).
    apply open_here; [right; reflexivity|].
    repeat (apply body_char; [discriminate ..|]). apply body_end.
  - apply (proj1 (proj2 (parseArgs_unclosed_quote _))).
    do 5 (apply closed_char; [discriminate ..|]).
    apply (closed_quoted squote "hello" " x"); [right; reflexivity| |].
    + repeat (apply body_char; [discriminate ..|]). apply body_end.
    + repeat (apply closed_char; [discriminate ..|]). apply closed_end.
Defined.

(** * More on the tokenizer: separators, quoting and escaping *)

(** The words collected so far only ever grow at the end: a scan that starts
    with the words [l] already collected gives [l] followed by what the same
    scan collects from none. *)
Definition with_args (l : list string) (st : state) : state :=
  {| args := (l ++ args st)%list; current := current st;
     quote := quote st; escape := escape st |}.

Lemma step_with_args (l : list string) (st : state) (c : ascii) :
  step (with_args l st) c = with_args l (step st c).
Proof.
  destruct st as [a cur q e]. unfold step, with_args. simpl.
  destruct e; [reflexivity|].
  destruct (Ascii.eqb c backslash); [reflexivity|].
  destruct q as [q|].
  - destruct (Ascii.eqb c q); reflexivity.
  - destruct (Ascii.eqb c dquote || Ascii.eqb c squote); [reflexivity|].
    destruct (is_space c); [|reflexivity].
    destruct (truthy cur); simpl; [|reflexivity].
    unfold push. now rewrite app_assoc.
Qed.

Lemma loop_with_args (l : list string) (s : string) (st : state) :
  loop (with_args l st) s = with_args l (loop st s).
Proof.
  revert st. induction s as [|c s IH]; intros st; simpl; [reflexivity|].
  now rewrite step_with_args, IH.
Qed.

Lemma finish_with_args (l : list string) (st : state) :
  finish (with_args l st) =
  match finish st with
  | Ok tokens => Ok (l ++ tokens)%list
  | Throw message => Throw message
  end.
Proof.
  unfold finish, with_args. simpl. destruct (quote st); [reflexivity|].
  destruct (truthy (current st)); [|reflexivity].
  unfold push. now rewrite app_assoc.
Qed.

(** A white-space character met outside quotes, with no escape pending, ends
    the current word: what is left is the words that [finish] would return
    and an empty current word. *)
Lemma step_separator (st : state) (sep : ascii) (tokens : list string) :
  is_space sep = true ->
  finish st = Ok tokens ->
  escape st = false ->
  step st sep = with_args tokens init.
Proof.
  intros Hsep Hfin Hesc. unfold finish in Hfin.
  destruct st as [l cur q e]. simpl in *. subst e.
  destruct q as [q|]; [discriminate|]. injection Hfin as <-.
  assert (Hb : Ascii.eqb sep backslash = false).
  { unfold is_space in Hsep.
    repeat (apply orb_true_iff in Hsep as [Hsep|Hsep]);
      apply Ascii.eqb_eq in Hsep; subst sep; reflexivity. }
  assert (Hq : Ascii.eqb sep dquote || Ascii.eqb sep squote = false).
  { unfold is_space in Hsep.
    repeat (apply orb_true_iff in Hsep as [Hsep|Hsep]);
      apply Ascii.eqb_eq in Hsep; subst sep; reflexivity. }
  unfold step. simpl. rewrite Hb, Hq, Hsep. unfold with_args, init. simpl.
  destruct cur as [|c cur]; simpl; now rewrite app_nil_r.
Qed.

Lemma loop_separator (a b : string) (sep : ascii) (tokens : list string) :
  is_space sep = true ->
  finish (loop init a) = Ok tokens ->
  escape (loop init a) = false ->
  loop init (a ++ String sep b) = with_args tokens (loop init b).
Proof.
  intros Hsep Ha Hesc. rewrite loop_app. cbn [loop].
  rewrite (step_separator _ sep tokens Hsep Ha Hesc).
  apply loop_with_args.
Qed.

(** X1: two inputs put one after the other with a white-space character in
    between give the tokens of the first followed by the tokens of the
    second, when the first closes its quotes and does not end in an
    unescaped backslash; an unclosed quote of the second is reported as it
    would be alone. *)
Theorem parseArgs_compose :
  forall (a b : string) (sep : ascii) (tokens : list string),
    is_space sep = true ->
    parseArgs a = Ok tokens ->
    escape (loop init a) = false ->
    parseArgs (a ++ String sep b) =
    match parseArgs b with
    | Ok more => Ok (tokens ++ more)%list
    | Throw message => Throw message
    end.
Proof.
  intros a b sep tokens Hsep Ha Hesc. unfold parseArgs in *.
  rewrite (loop_separator a b sep tokens Hsep Ha Hesc).
  apply finish_with_args.
Qed.

Lemma parseArgs_compose_witness :
  parseArgs ("git commit" ++ String tab ("-m " ++ in_dquotes "fix bug"))
  = Ok (["git"; "commit"] ++ ["-m"; "fix bug"])%list.
Proof.
  apply (parseArgs_compose "git commit" ("-m " ++ in_dquotes "fix bug") tab
           ["git"; "commit"]); reflexivity.
Defined.

(** A character with no meaning for the scanner: not a backslash, not a
    quote, not white space. *)
Definition is_plain (c : ascii) : bool :=
  negb (Ascii.eqb c backslash || Ascii.eqb c dquote || Ascii.eqb c squote
        || is_space c).

Fixpoint all_chars (p : ascii -> bool) (s : string) : bool :=
  match s with
  | EmptyString => true
  | String c rest => p c && all_chars p rest
  end.

Definition plain_word (w : string) : Prop :=
  w <> EmptyString /\ all_chars is_plain w = true.

Lemma push_char_append (cur : string) (c : ascii) (w : string) :
  push_char cur c ++ w = cur ++ String c w.
Proof. unfold push_char. now rewrite append_assoc. Qed.

Lemma loop_plain (w : string) (l : list string) (cur : string) :
  all_chars is_plain w = true ->
  loop {| args := l; current := cur; quote := None; escape := false |} w
  = {| args := l; current := cur ++ w; quote := None; escape := false |}.
Proof.
  revert cur. induction w as [|c w IH]; intros cur H; simpl.
  - now rewrite append_nil_r.
  - simpl in H. apply andb_true_iff in H as [Hc Hw].
    unfold is_plain in Hc. apply negb_true_iff in Hc.
    apply orb_false_iff in Hc as [Hc Hs]. apply orb_false_iff in Hc as [Hc Hq].
    apply orb_false_iff in Hc as [Hb Hd].
    unfold step. simpl. rewrite Hb, Hd, Hq, Hs. simpl.
    rewrite (IH _ Hw). now rewrite push_char_append.
Qed.

Lemma parseArgs_plain_word (w : string) :
  plain_word w ->
  parseArgs w = Ok [w] /\ escape (loop init w) = false.
Proof.
  intros [Hne Hw]. unfold parseArgs, init. rewrite (loop_plain w [] EmptyString Hw).
  simpl. split; [|reflexivity]. unfold finish. simpl.
  destruct w; [contradiction | reflexivity].
Qed.

(** Plain words joined by single spaces, as the handler joins the arguments
    it logs, are read back as the same words. *)
Lemma parseArgs_join_space (words : list string) :
  Forall plain_word words ->
  parseArgs (String.concat " " words) = Ok words.
Proof.
  induction 1 as [|w words Hw Hws IH]; [reflexivity|].
  destruct (parseArgs_plain_word w Hw) as [Pw Ew].
  destruct words as [|w' words]; [exact Pw|].
  change (String.concat " " (w :: w' :: words))
    with (w ++ String space (String.concat " " (w' :: words))).
  unfold parseArgs in *.
  rewrite (loop_separator w _ space [w] eq_refl Pw Ew), finish_with_args.
  now rewrite IH.
Qed.

Lemma loop_leading_space (ws : string) :
  all_chars is_space ws = true -> loop init ws = init.
Proof.
  induction ws as [|c ws IH]; intros H; [reflexivity|].
  simpl in H. apply andb_true_iff in H as [Hc Hw]. cbn [loop].
  rewrite (step_separator init c [] Hc eq_refl eq_refl). now apply IH.
Qed.

(** X2: words made of plain characters and joined by any non-empty run of
    white space are read back as the same words. *)
Theorem parseArgs_join_round_trip :
  forall (sep : string) (words : list string),
    sep <> EmptyString ->
    all_chars is_space sep = true ->
    Forall plain_word words ->
    parseArgs (String.concat sep words) = Ok words.
Proof.
  intros sep words Hne Hsep H.
  induction H as [|w words Hw Hws IH]; [reflexivity|].
  destruct (parseArgs_plain_word w Hw) as [Pw Ew].
  destruct words as [|w' words]; [exact Pw|].
  destruct sep as [|c sep']; [contradiction|].
  simpl in Hsep. apply andb_true_iff in Hsep as [Hc Hsep'].
  change (String.concat (String c sep') (w :: w' :: words))
    with (w ++ String c (sep' ++ String.concat (String c sep') (w' :: words))).
  unfold parseArgs in *.
  rewrite (loop_separator w _ c [w] Hc Pw Ew), finish_with_args.
  rewrite loop_app, (loop_leading_space sep' Hsep').
  now rewrite IH.
Qed.

Lemma parseArgs_join_round_trip_witness :
  parseArgs (String.concat (String tab " ") ["npm"; "install"; "@scope/pkg.js"])
  = Ok ["npm"; "install"; "@scope/pkg.js"].
Proof.
  apply parseArgs_join_round_trip; [discriminate | reflexivity |].
  repeat constructor; discriminate.
Defined.

(** Inside a quote every character but the quote itself and the backslash
    goes to the current word as it is. *)
Definition kept_in_quote (q c : ascii) : bool :=
  negb (Ascii.eqb c q || Ascii.eqb c backslash).

Lemma loop_in_quote (q : ascii) (w : string) (l : list string) (cur : string) :
  all_chars (kept_in_quote q) w = true ->
  loop {| args := l; current := cur; quote := Some q; escape := false |} w
  = {| args := l; current := cur ++ w; quote := Some q; escape := false |}.
Proof.
  revert cur. induction w as [|c w IH]; intros cur H; simpl.
  - now rewrite append_nil_r.
  - simpl in H. apply andb_true_iff in H as [Hc Hw].
    unfold kept_in_quote in Hc. apply negb_true_iff in Hc.
    apply orb_false_iff in Hc as [Hq Hb].
    unfold step. simpl. rewrite Hb, Hq.
    rewrite (IH _ Hw). now rewrite push_char_append.
Qed.

(** X3: a text put between two single or two double quotes, holding neither
    that quote nor a backslash, is returned whole as one token, spaces and
    the other quote included; the empty text gives no token. *)
Theorem parseArgs_quoted_round_trip :
  forall (q : ascii) (w : string),
    is_quote q ->
    all_chars (kept_in_quote q) w = true ->
    parseArgs (String q (w ++ String q EmptyString))
    = Ok (if truthy w then [w] else []).
Proof.
  intros q w Hq Hw. unfold parseArgs. cbn [loop].
  assert (S1 : step init q
               = {| args := []; current := EmptyString; quote := Some q;
                    escape := false |}).
  { unfold step, init. simpl.
    now rewrite (is_quote_not_backslash q Hq), (proj2 (is_quote_iff q) Hq). }
  rewrite S1, loop_app, (loop_in_quote q w _ _ Hw). cbn [loop append].
  unfold step. cbn [escape quote args current].
  rewrite (is_quote_not_backslash q Hq), Ascii.eqb_refl.
  unfold finish. cbn [quote current args]. unfold push. reflexivity.
Qed.

Lemma parseArgs_quoted_round_trip_witness :
  parseArgs (String squote ("say " ++ in_dquotes "hi" ++ String squote EmptyString))
  = Ok ["say " ++ in_dquotes "hi"].
Proof.
  apply (parseArgs_quoted_round_trip squote ("say " ++ in_dquotes "hi"));
    [right; reflexivity | reflexivity].
Defined.

(** Every character of [w] behind a backslash of its own. *)
Fixpoint escape_all (w : string) : string :=
  match w with
  | EmptyString => EmptyString
  | String c rest => String backslash (String c (escape_all rest))
  end.

Lemma loop_escape_all (w rest : string) (l : list string) (cur : string)
  (q : option ascii) :
  loop {| args := l; current := cur; quote := q; escape := false |}
    (escape_all w ++ rest)
  = loop {| args := l; current := cur ++ w; quote := q; escape := false |} rest.
Proof.
  revert cur. induction w as [|c w IH]; intros cur.
  - simpl. now rewrite append_nil_r.
  - cbn [escape_all append loop]. rewrite step_backslash by reflexivity.
    rewrite step_escaped by reflexivity. cbn [args current quote].
    rewrite IH. now rewrite push_char_append.
Qed.

(** X4: any non-empty text at all, with a backslash put before each of its
    characters, is returned as one token equal to the text, outside quotes
    and between quotes alike. *)
Theorem parseArgs_escaped_round_trip :
  forall w : string,
    w <> EmptyString ->
    parseArgs (escape_all w) = Ok [w]
    /\ forall q : ascii,
         is_quote q ->
         parseArgs (String q (escape_all w ++ String q EmptyString)) = Ok [w].
Proof.
  intros w Hw. split.
  - unfold parseArgs, init.
    rewrite <- (append_nil_r (escape_all w)), loop_escape_all.
    cbn [loop append]. unfold finish. cbn [quote current args].
    destruct w; [contradiction | reflexivity].
  - intros q Hq. unfold parseArgs. cbn [loop].
    assert (S1 : step init q
                 = {| args := []; current := EmptyString; quote := Some q;
                      escape := false |}).
    { unfold step, init. simpl.
      now rewrite (is_quote_not_backslash q Hq), (proj2 (is_quote_iff q) Hq). }
    rewrite S1, loop_escape_all. cbn [loop append].
    unfold step. cbn [escape quote args current].
    rewrite (is_quote_not_backslash q Hq), Ascii.eqb_refl.
    unfold finish. cbn [quote current args].
    destruct w; [contradiction | reflexivity].
Qed.

Lemma parseArgs_escaped_round_trip_witness :
  parseArgs (escape_all ("a b" ++ String backslash (String dquote "'")))
  = Ok ["a b" ++ String backslash (String dquote "'")].
Proof.
  apply (parseArgs_escaped_round_trip ("a b" ++ String backslash (String dquote "'"))).
  discriminate.
Defined.

Lemma space_not_special (c : ascii) :
  is_space c = true ->
  Ascii.eqb c backslash = false /\ ~ is_quote c.
Proof.
  intros Hc. unfold is_space in Hc.
  repeat (apply orb_true_iff in Hc as [Hc|Hc]);
    apply Ascii.eqb_eq in Hc; subst c;
    (split; [reflexivity | intros [H|H]; discriminate]).
Qed.

Lemma finish_trailing_space (ws : string) (st : state) :
  all_chars is_space ws = true ->
  escape st = false ->
  (forall q, quote st = Some q -> is_quote q) ->
  finish (loop st ws) = finish st.
Proof.
  revert st. induction ws as [|c ws IH]; intros st H Hesc Hq; [reflexivity|].
  simpl in H. apply andb_true_iff in H as [Hc Hw]. cbn [loop].
  destruct (finish st) as [tokens|message] eqn:F.
  - rewrite (step_separator st c tokens Hc F Hesc).
    rewrite IH; [| exact Hw | reflexivity | discriminate].
    unfold finish, with_args, init. simpl. now rewrite app_nil_r.
  - destruct (space_not_special c Hc) as [Hb Hn].
    unfold finish in F. destruct st as [l cur q e]. simpl in *. subst e.
    destruct q as [q|]; [|discriminate].
    assert (Q : Ascii.eqb c q = false).
    { apply Ascii.eqb_neq. intros ->. apply Hn. now apply Hq. }
    unfold step. simpl. rewrite Hb, Q.
    rewrite IH; [| exact Hw | reflexivity | exact Hq].
    unfold finish. simpl. exact F.
Qed.

Lemma loop_quote_is_quote (s : string) (q : ascii) :
  quote (loop init s) = Some q -> is_quote q.
Proof.
  rewrite loop_quote. intros H.
  apply (quote_open_is_quote q s).
  now apply (proj2 (final_quote_shape _ s (Nat.le_refl _))).
Qed.

(** X5: white space before the input is ignored, and so is white space after
    it unless it follows an unescaped backslash; an input of white space only
    has no token. *)
Theorem parseArgs_outer_space :
  forall ws s : string,
    all_chars is_space ws = true ->
    parseArgs (ws ++ s) = parseArgs s
    /\ (escape (loop init s) = false -> parseArgs (s ++ ws) = parseArgs s)
    /\ parseArgs ws = Ok [].
Proof.
  intros ws s H. unfold parseArgs. split; [|split].
  - now rewrite loop_app, (loop_leading_space ws H).
  - intros Hesc. rewrite loop_app.
    apply finish_trailing_space; [exact H | exact Hesc |].
    intros q. apply loop_quote_is_quote.
  - now rewrite (loop_leading_space ws H).
Qed.

Lemma parseArgs_outer_space_witness :
  parseArgs (String tab " " ++ "ls -la") = parseArgs "ls -la"
  /\ (escape (loop init "ls -la") = false ->
      parseArgs ("ls -la" ++ String tab " ") = parseArgs "ls -la")
  /\ parseArgs (String tab " ") = Ok [].
Proof. apply (parseArgs_outer_space (String tab " ") "ls -la"). reflexivity. Defined.


(** * More on the validator: what is accepted, what is reported *)

From Stdlib Require Import Permutation.

Lemma check_args_none_iff (cfg : AllowedCommand) (baseCommand : string)
  (args : list string) :
  flagless_record cfg = true ->
  fst (check_args cfg baseCommand args) = None <-> Forall (passes cfg) args.
Proof.
  intros F. induction args as [|a args IH].
  - split; [constructor | reflexivity].
  - rewrite (check_args_cons _ _ _ _ F), check_arg_fst.
    unfold passes at 1 in IH. split.
    + intros H. destruct (isDenied cfg a) eqn:D; [discriminate|].
      destruct (isAllowedArg cfg a) eqn:A; [|discriminate]. simpl in H.
      constructor; [split; assumption | now apply IH].
    + intros H. inversion H as [|x l [D A] Hl]; subst.
      rewrite D, A. simpl. now apply IH.
Qed.

(** With neither list there every argument passes. *)
Lemma passes_bare (cfg : AllowedCommand) (arg : string) :
  allowedArgs cfg = None -> deniedArgs cfg = None -> passes cfg arg.
Proof. intros Ha Hd. unfold passes, isDenied, isAllowedArg. now rewrite Ha, Hd. Qed.

Lemma validateCommand_found_none_iff (allowedCommands : list AllowedCommand)
  (cfg : AllowedCommand) (baseCommand : string) (args : list string) :
  find (named baseCommand) allowedCommands = Some cfg ->
  flagless_record cfg = true ->
  fst (validateCommand allowedCommands baseCommand args) = None <->
  Forall (passes cfg) args.
Proof.
  intros E F. rewrite (validateCommand_rule _ cfg _ _ E).
  destruct (allowedArgs cfg) as [allowed|] eqn:A;
    destruct (deniedArgs cfg) as [denied|] eqn:D; simpl;
    try (now apply check_args_none_iff).
  split; [|reflexivity]. intros _.
  apply Forall_forall. intros a _. now apply passes_bare.
Qed.

Lemma validateCommand_none_found (allowedCommands : list AllowedCommand)
  (baseCommand : string) (args : list string) :
  fst (validateCommand allowedCommands baseCommand args) = None ->
  exists cfg, find (named baseCommand) allowedCommands = Some cfg.
Proof.
  unfold validateCommand. fold (named baseCommand).
  destruct (find (named baseCommand) allowedCommands) as [cfg|]; [eauto | discriminate].
Qed.

Lemma find_flagless (allowedCommands : list AllowedCommand) (cfg : AllowedCommand)
  (baseCommand : string) :
  forallb flagless_record allowedCommands = true ->
  find (named baseCommand) allowedCommands = Some cfg ->
  flagless_record cfg = true.
Proof.
  intros F E. apply find_some in E as [Hin _].
  rewrite forallb_forall in F. now apply F.
Qed.

Lemma find_split (baseCommand : string) (l : list AllowedCommand)
  (cfg : AllowedCommand) :
  find (named baseCommand) l = Some cfg ->
  exists before after,
    l = (before ++ cfg :: after)%list
    /\ Forall (fun c => command c <> baseCommand) before
    /\ command cfg = baseCommand.
Proof.
  induction l as [|c l IH]; [discriminate|]. simpl.
  destruct (named baseCommand c) eqn:N.
  - intros E. injection E as ->. exists [], l. repeat split; [constructor|].
    now apply String.eqb_eq.
  - intros E. destruct (IH E) as [before [after [-> [Hb Hc]]]].
    exists (c :: before), after. repeat split; [|exact Hc].
    constructor; [|exact Hb]. now apply String.eqb_neq.
Qed.

(** X6: with a whitelist none of whose patterns carries the [g] or the [y]
    flag, a call is accepted exactly when the list holds a record for the
    program and every argument, each on its own, is matched by no denied
    matcher of the first such record and by some allowed matcher when the
    record has allowed matchers. *)
Theorem validateCommand_accepts_iff :
  forall (allowedCommands : list AllowedCommand) (baseCommand : string)
         (args : list string),
    forallb flagless_record allowedCommands = true ->
    (fst (validateCommand allowedCommands baseCommand args) = None <->
     exists before cfg after,
       allowedCommands = (before ++ cfg :: after)%list
       /\ Forall (fun c => command c <> baseCommand) before
       /\ command cfg = baseCommand
       /\ Forall (fun arg => isDenied cfg arg = false /\ isAllowedArg cfg arg = true)
            args).
Proof.
  intros allowedCommands baseCommand args F. split.
  - intros H. destruct (validateCommand_none_found _ _ _ H) as [cfg E].
    destruct (find_split _ _ _ E) as [before [after [El [Hb Hc]]]].
    exists before, cfg, after. repeat split; auto.
    apply (validateCommand_found_none_iff _ cfg _ _ E); [|exact H].
    now apply (find_flagless allowedCommands cfg baseCommand).
  - intros [before [cfg [after [El [Hb [Hc H]]]]]].
    assert (E : find (named baseCommand) allowedCommands = Some cfg)
      by (rewrite El; now apply find_first).
    apply (validateCommand_found_none_iff _ cfg _ _ E); [|exact H].
    now apply (find_flagless allowedCommands cfg baseCommand).
Qed.

Lemma validateCommand_accepts_iff_witness :
  exists before cfg after,
    DEFAULT_ALLOWED_COMMANDS = (before ++ cfg :: after)%list
    /\ Forall (fun c => command c <> "git") before
    /\ command cfg = "git"
    /\ Forall (fun arg => isDenied cfg arg = false /\ isAllowedArg cfg arg = true)
         ["status"; "-s"].
Proof.
  apply (proj1 (validateCommand_accepts_iff DEFAULT_ALLOWED_COMMANDS "git"
                  ["status"; "-s"] eq_refl)).
  vm_compute. reflexivity.
Defined.

(** X7: for a record none of whose patterns carries the [g] or the [y] flag,
    a rejected call reports the first argument that fails a check, and the
    message tells which check: explicitly denied when a denied matcher
    matches it, not allowed otherwise. *)
Theorem validateCommand_first_failure :
  forall (before after : list AllowedCommand) (cfg : AllowedCommand)
         (baseCommand : string) (pre post : list string) (arg : string),
    Forall (fun c => command c <> baseCommand) before ->
    command cfg = baseCommand ->
    flagless_record cfg = true ->
    Forall (passes cfg) pre ->
    ~ passes cfg arg ->
    fst (validateCommand (before ++ cfg :: after) baseCommand (pre ++ arg :: post)) =
    Some (if isDenied cfg arg
          then "Argument '" ++ arg ++ "' for command '" ++ baseCommand
               ++ "' is explicitly denied."
          else "Argument '" ++ arg ++ "' for command '" ++ baseCommand
               ++ "' is not allowed.").
Proof.
  intros before after cfg baseCommand pre post arg Hb Hc F Hpre Hfail.
  rewrite (validateCommand_rule _ cfg _ _ (find_first _ _ _ _ Hb Hc)).
  rewrite (present_when_failing cfg arg Hfail).
  now apply check_args_first_failure.
Qed.

Lemma validateCommand_first_failure_witness :
  fst (validateCommand DEFAULT_ALLOWED_COMMANDS "git" ["commit"; "a b"; ";"])
  = Some "Argument 'a b' for command 'git' is not allowed.".
Proof.
  assert (Hb : Forall (fun c => command c <> "git")
                 (firstn 21 DEFAULT_ALLOWED_COMMANDS))
    by (repeat constructor; discriminate).
  apply (validateCommand_first_failure (firstn 21 DEFAULT_ALLOWED_COMMANDS)
           (skipn 22 DEFAULT_ALLOWED_COMMANDS) git "git" ["commit"] [";"] "a b"
           Hb eq_refl eq_refl).
  - repeat constructor.
  - intros [_ H]. vm_compute in H. discriminate.
Defined.

(** X8: with a whitelist none of whose patterns carries the [g] or the [y]
    flag the arguments are judged one by one, so two argument lists are
    accepted together exactly when each is accepted, and the order of the
    arguments has no bearing on acceptance. *)
Theorem validateCommand_per_argument :
  forall (allowedCommands : list AllowedCommand) (baseCommand : string)
         (args1 args2 : list string),
    forallb flagless_record allowedCommands = true ->
    (fst (validateCommand allowedCommands baseCommand (args1 ++ args2)) = None <->
     fst (validateCommand allowedCommands baseCommand args1) = None
     /\ fst (validateCommand allowedCommands baseCommand args2) = None)
    /\ (forall args' : list string,
           Permutation args1 args' ->
           (fst (validateCommand allowedCommands baseCommand args1) = None <->
            fst (validateCommand allowedCommands baseCommand args') = None)).
Proof.
  intros allowedCommands baseCommand args1 args2 F.
  destruct (find (named baseCommand) allowedCommands) as [cfg|] eqn:E.
  - pose proof (find_flagless _ _ _ F E) as Fc.
    split; [|intros args' P];
      rewrite !(validateCommand_found_none_iff _ cfg _ _ E Fc).
    + rewrite Forall_app. tauto.
    + rewrite !Forall_forall. split; intros H a Ha; apply H.
      * apply (Permutation_in a (Permutation_sym P) Ha).
      * apply (Permutation_in a P Ha).
  - assert (N : forall args, fst (validateCommand allowedCommands baseCommand args)
                             <> None).
    { intros args H. apply validateCommand_none_found in H as [cfg H]. congruence. }
    split; [|intros args' P]; split; intros H;
      try (now destruct (N _ H)); destruct H as [H _]; now destruct (N _ H).
Qed.

Lemma validateCommand_per_argument_witness :
  fst (validateCommand DEFAULT_ALLOWED_COMMANDS "npm" ["my-package"; "install"]) = None.
Proof.
  apply (proj2 (validateCommand_per_argument DEFAULT_ALLOWED_COMMANDS "npm"
                  ["install"; "my-package"] [] eq_refl) ["my-package"; "install"]).
  - apply perm_swap.
  - vm_compute. reflexivity.
Defined.

(** X9: only the first record with the program's name is consulted: the
    records before it and every record after it, of the same name or not,
    change nothing of the answer. *)
Theorem validateCommand_first_record_only :
  forall (before after : list AllowedCommand) (cfg : AllowedCommand)
         (baseCommand : string) (args : list string),
    Forall (fun c => command c <> baseCommand) before ->
    command cfg = baseCommand ->
    fst (validateCommand (before ++ cfg :: after) baseCommand args)
    = fst (validateCommand [cfg] baseCommand args).
Proof.
  intros before after cfg baseCommand args Hb Hc.
  rewrite (validateCommand_rule _ cfg _ _ (find_first _ _ _ _ Hb Hc)).
  symmetry. apply validateCommand_rule.
  apply (find_first [] [] cfg baseCommand); [constructor | exact Hc].
Qed.

(** A second [ls] record that denies everything is never looked at. *)
Lemma validateCommand_first_record_only_witness :
  fst (validateCommand
         ([] ++ only "ls"
             :: [{| command := "ls"; allowedArgs := Some []; deniedArgs := None |}])
         "ls" ["-la"])
  = fst (validateCommand [only "ls"] "ls" ["-la"]).
Proof.
  apply validateCommand_first_record_only; [constructor | reflexivity].
Defined.

(** Two optional matcher lists with the same matchers in any order. *)
Definition same_matchers (o o' : option (list matcher)) : Prop :=
  match o, o' with
  | Some l, Some l' => Permutation l l'
  | None, None => True
  | _, _ => False
  end.

Lemma existsb_permutation {A : Type} (f : A -> bool) (l l' : list A) :
  Permutation l l' -> existsb f l = existsb f l'.
Proof.
  induction 1 as [|x l l' _ IH|x y l|l l' l'' _ IH1 _ IH2]; simpl.
  - reflexivity.
  - now rewrite IH.
  - now rewrite !orb_assoc, (orb_comm (f y) (f x)).
  - now rewrite IH1.
Qed.

Lemma forallb_permutation {A : Type} (f : A -> bool) (l l' : list A) :
  Permutation l l' -> forallb f l = forallb f l'.
Proof.
  induction 1 as [|x l l' _ IH|x y l|l l' l'' _ IH1 _ IH2]; simpl.
  - reflexivity.
  - now rewrite IH.
  - now rewrite !andb_assoc, (andb_comm (f y) (f x)).
  - now rewrite IH1.
Qed.

Lemma flagless_field_same (o o' : option (list matcher)) :
  same_matchers o o' -> flagless_field o = flagless_field o'.
Proof.
  destruct o, o'; simpl; try contradiction; [apply forallb_permutation | reflexivity].
Qed.

Lemma some_now_same (o o' : option (list matcher)) (arg : string) (default : bool) :
  same_matchers o o' ->
  flagless_field o = true ->
  match o with Some l => fst (some_matches arg l) | None => default end
  = match o' with Some l => fst (some_matches arg l) | None => default end.
Proof.
  intros S F. pose proof (flagless_field_same o o' S) as F'. rewrite F in F'.
  destruct o as [l|], o' as [l'|]; simpl in *; try contradiction; [|reflexivity].
  rewrite (some_matches_flagless arg l F), (some_matches_flagless arg l' (eq_sym F')).
  simpl. now apply existsb_permutation.
Qed.

Lemma check_args_same_matchers (cfg cfg' : AllowedCommand)
  (baseCommand : string) (args : list string) :
  flagless_record cfg = true ->
  same_matchers (allowedArgs cfg) (allowedArgs cfg') ->
  same_matchers (deniedArgs cfg) (deniedArgs cfg') ->
  fst (check_args cfg baseCommand args) = fst (check_args cfg' baseCommand args)
  /\ present (allowedArgs cfg) || present (deniedArgs cfg)
     = present (allowedArgs cfg') || present (deniedArgs cfg').
Proof.
  intros F Ha Hd. unfold flagless_record in F.
  apply andb_true_iff in F as [Fa Fd].
  assert (F : flagless_record cfg = true)
    by (unfold flagless_record; now rewrite Fa, Fd).
  assert (F' : flagless_record cfg' = true).
  { unfold flagless_record.
    now rewrite <- (flagless_field_same _ _ Ha), <- (flagless_field_same _ _ Hd), Fa, Fd. }
  assert (D : forall a, isDenied cfg a = isDenied cfg' a)
    by (intros a; now apply some_now_same).
  assert (A : forall a, isAllowedArg cfg a = isAllowedArg cfg' a)
    by (intros a; now apply some_now_same).
  split.
  - induction args as [|a args IH]; [reflexivity|].
    rewrite (check_args_cons _ _ _ _ F), (check_args_cons _ _ _ _ F').
    now rewrite !check_arg_fst, D, A, IH.
  - destruct (allowedArgs cfg), (allowedArgs cfg'),
      (deniedArgs cfg), (deniedArgs cfg'); simpl in *; tauto.
Qed.

(** X10: for a record none of whose patterns carries the [g] or the [y]
    flag, the order in which it lists its allowed matchers, and its denied
    matchers, has no bearing on the answer, message included. *)
Theorem validateCommand_matcher_order :
  forall (before after : list AllowedCommand) (cfg cfg' : AllowedCommand)
         (baseCommand : string) (args : list string),
    command cfg = command cfg' ->
    flagless_record cfg = true ->
    same_matchers (allowedArgs cfg) (allowedArgs cfg') ->
    same_matchers (deniedArgs cfg) (deniedArgs cfg') ->
    fst (validateCommand (before ++ cfg :: after) baseCommand args)
    = fst (validateCommand (before ++ cfg' :: after) baseCommand args).
Proof.
  intros before after cfg cfg' baseCommand args Hc F Ha Hd.
  destruct (check_args_same_matchers cfg cfg' baseCommand args F Ha Hd) as [E P].
  destruct (find (named baseCommand) before) as [c|] eqn:B.
  - assert (G : forall x, find (named baseCommand) (before ++ x :: after) = Some c).
    { intros x. clear - B. induction before as [|b before IH]; [discriminate|].
      simpl in *. destruct (named baseCommand b); [exact B | now apply IH]. }
    now rewrite (validateCommand_rule _ c _ _ (G cfg)),
      (validateCommand_rule _ c _ _ (G cfg')).
  - assert (G : forall x, find (named baseCommand) (before ++ x :: after)
                          = find (named baseCommand) (x :: after)).
    { intros x. clear - B. induction before as [|b before IH]; [reflexivity|].
      simpl in *. destruct (named baseCommand b); [discriminate | now apply IH]. }
    destruct (named baseCommand cfg) eqn:N.
    + assert (N' : named baseCommand cfg' = true)
        by (unfold named in *; now rewrite <- Hc).
      rewrite (validateCommand_rule _ cfg _ _
                 (eq_trans (G cfg) ltac:(simpl; now rewrite N))).
      rewrite (validateCommand_rule _ cfg' _ _
                 (eq_trans (G cfg') ltac:(simpl; now rewrite N'))).
      now rewrite E, P.
    + assert (N' : named baseCommand cfg' = false)
        by (unfold named in *; now rewrite <- Hc).
      unfold validateCommand. fold (named baseCommand).
      rewrite (G cfg), (G cfg'). simpl. rewrite N, N'.
      destruct (find (named baseCommand) after) as [c|]; [|reflexivity].
      destruct (present (allowedArgs c) || present (deniedArgs c)); [|reflexivity].
      now destruct (check_args c baseCommand args).
Qed.

Lemma validateCommand_matcher_order_witness :
  fst (validateCommand
         ([] ++ {| command := "npm";
                   allowedArgs := Some [Literal "install"; regex re_option];
                   deniedArgs := Some [Literal "publish"; Literal "eval"] |} :: [])
         "npm" ["install"; "eval"])
  = fst (validateCommand
           ([] ++ {| command := "npm";
                     allowedArgs := Some [regex re_option; Literal "install"];
                     deniedArgs := Some [Literal "eval"; Literal "publish"] |} :: [])
           "npm" ["install"; "eval"]).
Proof.
  apply validateCommand_matcher_order;
    [reflexivity | reflexivity | apply perm_swap | apply perm_swap].
Defined.

(** The record that [find] gave, put back unchanged, leaves the list as it
    was. *)
Lemma store_found (baseCommand : string) (cfg : AllowedCommand)
  (l : list AllowedCommand) :
  find (named baseCommand) l = Some cfg -> store baseCommand cfg l = l.
Proof.
  induction l as [|c l IH]; [discriminate|]. simpl. unfold named at 1.
  destruct (String.eqb (command c) baseCommand).
  - intros E. now injection E as ->.
  - intros E. now rewrite (IH E).
Qed.

Lemma validateCommand_flagless_snd (allowedCommands : list AllowedCommand)
  (baseCommand : string) (args : list string) :
  forallb flagless_record allowedCommands = true ->
  snd (validateCommand allowedCommands baseCommand args) = allowedCommands.
Proof.
  intros F. unfold validateCommand. fold (named baseCommand).
  destruct (find (named baseCommand) allowedCommands) as [cfg|] eqn:E; [|reflexivity].
  destruct (present (allowedArgs cfg) || present (deniedArgs cfg)); [|reflexivity].
  pose proof (check_args_flagless cfg baseCommand args (find_flagless _ _ _ F E)) as S.
  destruct (check_args cfg baseCommand args) as [message cfg']. simpl in *. subst cfg'.
  now apply store_found.
Qed.

(** X22: a whitelist none of whose patterns carries the [g] or the [y] flag
    is left as it was by every call, so a call answers the same whatever
    calls were made before it; the compiled-in table is such a whitelist.
    A pattern with the [g] flag breaks this: the same call is accepted, then
    rejected, then accepted again. *)
Theorem validateCommand_repeatable :
  (forall (allowedCommands : list AllowedCommand) (baseCommand : string)
          (args : list string),
      forallb flagless_record allowedCommands = true ->
      snd (validateCommand allowedCommands baseCommand args) = allowedCommands
      /\ forall (next : string) (args' : list string),
           fst (validateCommand
                  (snd (validateCommand allowedCommands baseCommand args))
                  next args')
           = fst (validateCommand allowedCommands next args'))
  /\ forallb flagless_record DEFAULT_ALLOWED_COMMANDS = true
  /\ (fst (validateCommand
             [{| command := "echo"; allowedArgs := Some [re_a_global];
                 deniedArgs := None |}] "echo" ["a"]) = None
      /\ fst (validateCommand
                (snd (validateCommand
                        [{| command := "echo"; allowedArgs := Some [re_a_global];
                            deniedArgs := None |}] "echo" ["a"]))
                "echo" ["a"])
         = Some "Argument 'a' for command 'echo' is not allowed."
      /\ fst (validateCommand
                [{| command := "echo"; allowedArgs := Some [re_a_global];
                    deniedArgs := None |}] "echo" ["a"; "a"])
         = Some "Argument 'a' for command 'echo' is not allowed.").
Proof.
  split; [|split; [reflexivity | repeat split; vm_compute; reflexivity]].
  intros allowedCommands baseCommand args F.
  pose proof (validateCommand_flagless_snd allowedCommands baseCommand args F) as S.
  split; [exact S | intros next args'; now rewrite S].
Qed.

Lemma validateCommand_repeatable_witness :
  fst (validateCommand
         (snd (validateCommand DEFAULT_ALLOWED_COMMANDS "npm" ["install"; "a"]))
         "npm" ["install"; "a"])
  = fst (validateCommand DEFAULT_ALLOWED_COMMANDS "npm" ["install"; "a"]).
Proof.
  apply (proj2 (proj1 validateCommand_repeatable DEFAULT_ALLOWED_COMMANDS "npm"
                  ["install"; "a"] eq_refl)).
Defined.

(** Why X7 and X10 ask for patterns without the two flags.  With the allowed
    pattern [/a/g] the second [a] is what the call names, not [b]; and with
    the literal [a] before or after that pattern the same arguments are
    accepted or rejected, since the literal, when it comes first, keeps the
    pattern from being tested on [a]. *)
Example flagged_patterns_at_work :
  fst (validateCommand
         [{| command := "echo"; allowedArgs := Some [re_a_global];
             deniedArgs := None |}] "echo" ["a"; "a"; "b"])
  = Some "Argument 'a' for command 'echo' is not allowed."
  /\ fst (validateCommand
            [{| command := "echo"; allowedArgs := Some [Literal "a"; re_a_global];
                deniedArgs := None |}] "echo" ["a"; "ab"])
     = None
  /\ fst (validateCommand
            [{| command := "echo"; allowedArgs := Some [re_a_global; Literal "a"];
                deniedArgs := None |}] "echo" ["a"; "ab"])
     = Some "Argument 'ab' for command 'echo' is not allowed.".
Proof. repeat split; vm_compute; reflexivity. Qed.

(** * The patterns of the compiled-in table *)

Lemma get_lt_some (s : string) (i : nat) :
  i < String.length s -> exists ch, String.get i s = Some ch.
Proof.
  revert i. induction s as [|c s IH]; intros i H; simpl in H; [lia|].
  destruct i as [|i]; simpl; [eauto | apply IH; lia].
Qed.

Lemma all_chars_get (p : ascii -> bool) (s : string) :
  all_chars p s = true <->
  forall i ch, String.get i s = Some ch -> p ch = true.
Proof.
  induction s as [|c s IH]; simpl.
  - split; [intros _ i ch H; discriminate | reflexivity].
  - rewrite andb_true_iff, IH. split.
    + intros [Hc Hs] [|i] ch H; simpl in H; [now injection H as <- | eauto].
    + intros H. split; [apply (H 0); reflexivity | intros i ch G; apply (H (S i)); exact G].
Qed.

Section OneCharacter.

Variable s : string.
Variable ok : ascii -> bool.

(** Repeating a one-character matcher from [x] stops at [y] exactly when
    every character from [x] up to [y] is accepted. *)
Lemma repeat_char_sound (fuel x y : nat) :
  RegExp.is_some
    (RegExp.repeat fuel (RegExp.char_matcher s ok) x (RegExp.stop_at y)) = true ->
  x <= y
  /\ forall i, x <= i < y -> exists ch, String.get i s = Some ch /\ ok ch = true.
Proof.
  revert x. induction fuel as [|fuel IH]; intros x H.
  - simpl in H. rewrite is_some_stop_at in H. apply Nat.eqb_eq in H. subst y.
    split; [lia | intros i Hi; lia].
  - rewrite repeat_succ, is_some_or_else in H. apply orb_true_iff in H as [H|H].
    + unfold RegExp.char_matcher at 1 in H.
      destruct (String.get x s) as [ch|] eqn:G; [|discriminate].
      destruct (ok ch) eqn:Hok; [|discriminate].
      rewrite is_some_iterate in H. apply andb_true_iff in H as [_ H].
      destruct (IH _ H) as [Hle Hall]. split; [lia|].
      intros i Hi. destruct (Nat.eq_dec i x) as [->|Hne]; [eauto|].
      apply Hall. lia.
    + rewrite is_some_stop_at in H. apply Nat.eqb_eq in H. subst y.
      split; [lia | intros i Hi; lia].
Qed.

Lemma repeat_char_complete (fuel x y : nat) :
  x <= y -> y - x <= fuel ->
  (forall i, x <= i < y -> exists ch, String.get i s = Some ch /\ ok ch = true) ->
  RegExp.is_some
    (RegExp.repeat fuel (RegExp.char_matcher s ok) x (RegExp.stop_at y)) = true.
Proof.
  revert x. induction fuel as [|fuel IH]; intros x Hle Hf Hall.
  - simpl. assert (y = x) by lia. subst y. now rewrite is_some_stop_at, Nat.eqb_refl.
  - rewrite repeat_succ, is_some_or_else.
    destruct (Nat.eq_dec y x) as [->|Hne];
      [now rewrite is_some_stop_at, Nat.eqb_refl, orb_true_r|].
    apply orb_true_iff. left. unfold RegExp.char_matcher at 1.
    destruct (Hall x ltac:(lia)) as [ch [G Hok]]. rewrite G, Hok.
    rewrite is_some_iterate.
    assert (N : Nat.eqb (S x) x = false) by (apply Nat.eqb_neq; lia).
    rewrite N. cbn [negb andb]. apply IH; [lia | lia |].
    intros i Hi. apply Hall. lia.
Qed.

End OneCharacter.

(** [^c]: the argument starts with [c]. *)
Lemma search_first_char (c : ascii) (s : string) :
  search (RegExp.Seq RegExp.Bol (RegExp.Char c)) s = true <->
  exists rest, s = String c rest.
Proof.
  rewrite search_bol. unfold RegExp.exec. cbn [RegExp.compile].
  unfold RegExp.char_matcher.
  destruct s as [|c' s]; simpl.
  - split; [discriminate | intros [rest H]; discriminate].
  - destruct (Ascii.eqb_spec c c') as [->|N]; simpl.
    + split; [eauto | reflexivity].
    + split; [discriminate | intros [rest H]; injection H as -> _; now destruct N].
Qed.

Definition in_class (items : list RegExp.class_item) (c : ascii) : bool :=
  existsb (RegExp.item_mem c) items.

(** [^[items]+$]: a non-empty argument, all of its characters in the class. *)
Lemma search_class_plus (items : list RegExp.class_item) (s : string) :
  search
    (RegExp.Seq RegExp.Bol
       (RegExp.Seq (RegExp.Plus (RegExp.Class false items)) RegExp.Eol)) s = true <->
  s <> EmptyString /\ all_chars (in_class items) s = true.
Proof.
  rewrite search_anchored. unfold RegExp.full_match, RegExp.span.
  cbn [RegExp.compile].
  set (ok := fun ch => xorb false (existsb (RegExp.item_mem ch) items)).
  assert (Hok : forall ch, ok ch = in_class items ch) by (intros ch; apply xorb_false_l).
  split.
  - intros H. unfold RegExp.char_matcher at 1 in H.
    destruct (String.get 0 s) as [ch|] eqn:G; [|discriminate].
    destruct (ok ch) eqn:H0; [|discriminate].
    apply repeat_char_sound in H as [_ Hall].
    split; [destruct s; [discriminate | discriminate]|].
    apply all_chars_get. intros i c Gi. rewrite <- Hok.
    destruct i as [|i]; [congruence|].
    pose proof (get_some_lt _ _ _ Gi) as L.
    destruct (Hall (S i) ltac:(lia)) as [c' [G' Hc']]. congruence.
  - intros [Hne Hall]. rewrite all_chars_get in Hall.
    unfold RegExp.char_matcher at 1.
    destruct s as [|c s]; [contradiction|]. cbn [String.get].
    rewrite Hok, (Hall 0 c eq_refl).
    apply repeat_char_complete; [simpl; lia | simpl; lia |].
    intros i Hi. destruct (get_lt_some (String c s) i (proj2 Hi)) as [ch G].
    exists ch. split; [exact G|]. rewrite Hok. now apply (Hall i).
Qed.

(** * The compiled-in records of the package managers and of git *)

Definition dash_prefixed (arg : string) : Prop :=
  exists rest, arg = String "-" rest.

(** The class of the package-name pattern. *)
Definition package_items : list RegExp.class_item :=
  [RegExp.One dquote; RegExp.Word; RegExp.One "@"; RegExp.One "/";
   RegExp.One "."; RegExp.One "-"].

Definition package_nameb (arg : string) : bool :=
  truthy arg && all_chars (in_class package_items) arg.

Definition package_name (arg : string) : Prop :=
  arg <> EmptyString /\ all_chars (in_class package_items) arg = true.

Lemma package_nameb_iff (arg : string) :
  package_nameb arg = true <-> package_name arg.
Proof.
  unfold package_nameb, package_name. now rewrite andb_true_iff, truthy_iff.
Qed.

Lemma matches_literals (arg : string) (words : list string) :
  existsb (matches_now arg) (literals words) = true <-> In arg words.
Proof.
  unfold literals. rewrite existsb_exists. split.
  - intros [m [Hin H]]. apply in_map_iff in Hin as [w [<- Hw]].
    unfold matches_now in H. simpl in H. apply String.eqb_eq in H. now subst.
  - intros H. exists (Literal arg). split; [now apply in_map|].
    unfold matches_now. simpl. apply String.eqb_refl.
Qed.

Lemma literals_flagless (words : list string) :
  forallb flagless (literals words) = true.
Proof. induction words as [|w words IH]; [reflexivity | exact IH]. Qed.

Lemma allowed_with_patterns (words : list string) (arg : string) :
  forallb package_nameb words = true ->
  existsb (matches_now arg)
    (literals words ++ [regex re_package; regex re_option]) = true <->
  dash_prefixed arg \/ package_name arg.
Proof.
  intros Hw. rewrite existsb_app, orb_true_iff, matches_literals.
  cbn [existsb]. rewrite orb_false_r, orb_true_iff.
  fold (search re_package arg). fold (search re_option arg).
  unfold re_package, re_option.
  rewrite (search_class_plus package_items arg), (search_first_char "-" arg).
  fold (package_name arg). fold (dash_prefixed arg). split.
  - intros [H|[H|H]]; auto. right. apply package_nameb_iff.
    rewrite forallb_forall in Hw. now apply Hw.
  - intros [H|H]; auto.
Qed.

Lemma package_manager_flagless (cfg : AllowedCommand) :
  In cfg [npm; yarn; pnpm; git] -> flagless_record cfg = true.
Proof. intros [<-|[<-|[<-|[<-|[]]]]]; reflexivity. Qed.

Lemma package_manager_passes (cfg : AllowedCommand) (words : list string)
  (arg : string) :
  In cfg [npm; yarn; pnpm] ->
  deniedArgs cfg = Some (literals words) ->
  passes cfg arg <->
  ~ In arg words /\ (dash_prefixed arg \/ package_name arg).
Proof.
  intros Hin Hd. unfold passes, isDenied, isAllowedArg. rewrite Hd.
  rewrite (some_matches_flagless arg _ (literals_flagless words)). cbn [fst].
  rewrite <- (matches_literals arg words), not_true_iff_false.
  assert (A : match allowedArgs cfg with
              | Some allowed => fst (some_matches arg allowed)
              | None => true
              end = true <-> dash_prefixed arg \/ package_name arg).
  { destruct Hin as [<-|[<-|[<-|[]]]]; cbn [allowedArgs npm yarn pnpm];
      (rewrite some_matches_flagless by reflexivity); cbn [fst];
      now apply allowed_with_patterns. }
  now rewrite A.
Qed.

(** X11: for [npm], [yarn] and [pnpm] in the compiled-in table a call is
    accepted exactly when each argument is none of the record's denied
    words and either starts with a dash or is a non-empty text made of
    letters, digits, the underscore, the double quote, [@], [/], [.] and [-];
    the allowed words of the three records add nothing to that. *)
Theorem package_manager_arguments :
  forall (cfg : AllowedCommand) (words args : list string),
    In cfg [npm; yarn; pnpm] ->
    deniedArgs cfg = Some (literals words) ->
    (fst (validateCommand DEFAULT_ALLOWED_COMMANDS (command cfg) args) = None <->
     Forall (fun arg => ~ In arg words
                        /\ (dash_prefixed arg \/ package_name arg)) args).
Proof.
  intros cfg words args Hin Hd.
  assert (F : find (named (command cfg)) DEFAULT_ALLOWED_COMMANDS = Some cfg).
  { destruct Hin as [<-|[<-|[<-|[]]]]; reflexivity. }
  assert (Fc : flagless_record cfg = true).
  { apply package_manager_flagless. simpl in *. tauto. }
  rewrite (validateCommand_found_none_iff _ cfg _ _ F Fc), !Forall_forall.
  split; intros H a Ha; apply (package_manager_passes cfg words a Hin Hd);
    now apply H.
Qed.

Lemma package_manager_arguments_witness :
  fst (validateCommand DEFAULT_ALLOWED_COMMANDS "pnpm"
         ["add"; "--save-dev=a b"; "@scope/pkg.js"])
  = None.
Proof.
  apply (proj2 (package_manager_arguments pnpm
                  ["publish"; "login"; "logout"; "server"; "exec"; "dlx"]
                  ["add"; "--save-dev=a b"; "@scope/pkg.js"]
                  (or_intror (or_intror (or_introl eq_refl))) eq_refl)).
  assert (N : forall a, existsb (String.eqb a)
                          ["publish"; "login"; "logout"; "server"; "exec"; "dlx"]
                        = false ->
                        ~ In a ["publish"; "login"; "logout"; "server"; "exec"; "dlx"]).
  { intros a E Hin. apply not_true_iff_false in E. apply E.
    apply existsb_exists. exists a. split; [exact Hin | apply String.eqb_refl]. }
  apply Forall_cons; [split; [now apply N | right; split; [discriminate | reflexivity]]|].
  apply Forall_cons; [split; [now apply N | left; eexists; reflexivity]|].
  apply Forall_cons; [split; [now apply N | right; split; [discriminate | reflexivity]]|].
  apply Forall_nil.
Defined.

Lemma dash_passes (cfg : AllowedCommand) (arg : string) :
  In cfg [npm; yarn; pnpm; git] -> dash_prefixed arg -> passes cfg arg.
Proof.
  intros Hin [rest ->].
  assert (T : matches_now (String "-" rest) (regex re_option) = true).
  { apply (search_first_char "-"). eauto. }
  split.
  - destruct Hin as [<-|[<-|[<-|[<-|[]]]]]; reflexivity.
  - unfold isAllowedArg.
    destruct Hin as [<-|[<-|[<-|[<-|[]]]]]; cbn [allowedArgs npm yarn pnpm git];
      (rewrite some_matches_flagless by reflexivity); cbn [fst];
      apply existsb_exists; exists (regex re_option);
      (split; [apply in_or_app; right; simpl; auto | exact T]).
Qed.

(** X12: for [npm], [yarn], [pnpm] and [git] in the compiled-in table an
    argument that starts with a dash always passes, whatever follows the
    dash: a call whose arguments all start with a dash is accepted. *)
Theorem dash_arguments_accepted :
  forall (cfg : AllowedCommand) (args : list string),
    In cfg [npm; yarn; pnpm; git] ->
    Forall dash_prefixed args ->
    fst (validateCommand DEFAULT_ALLOWED_COMMANDS (command cfg) args) = None.
Proof.
  intros cfg args Hin H.
  assert (F : find (named (command cfg)) DEFAULT_ALLOWED_COMMANDS = Some cfg).
  { destruct Hin as [<-|[<-|[<-|[<-|[]]]]]; reflexivity. }
  apply (validateCommand_found_none_iff _ cfg _ _ F (package_manager_flagless cfg Hin)).
  rewrite Forall_forall in *. intros a Ha. apply dash_passes; auto.
Qed.

Lemma dash_arguments_accepted_witness :
  fst (validateCommand DEFAULT_ALLOWED_COMMANDS "git" ["--exec=rm -rf /; x"]) = None.
Proof.
  apply (dash_arguments_accepted git ["--exec=rm -rf /; x"]).
  - simpl. auto.
  - repeat constructor. eexists. reflexivity.
Defined.
(** * More on the process runner: what decides the outcome *)

Lemma joined_firstn_le (n : nat) (chunks : list string) :
  String.length (joined (firstn n chunks)) <= String.length (joined chunks).
Proof.
  rewrite <- (firstn_skipn n chunks) at 2. rewrite joined_app, length_append. lia.
Qed.

(** A stream whose chunks but the last stay under the limit is kept whole. *)
Lemma feed_verbatim (maxBuffer : nat) (chunks : list string) :
  String.length (joined (removelast chunks)) < maxBuffer ->
  Runner.feed maxBuffer chunks = (joined chunks, false).
Proof.
  intros H. destruct (feed_shape maxBuffer chunks) as [n [Hn [E [Hcap _]]]].
  rewrite E. destruct (Nat.ltb n (List.length chunks)) eqn:T.
  - apply Nat.ltb_lt in T. specialize (Hcap T). exfalso.
    pose proof (joined_firstn_le n (removelast chunks)) as L.
    rewrite removelast_firstn_len, firstn_firstn in L.
    replace (Nat.min n (Nat.pred (List.length chunks))) with n in L by lia.
    rewrite <- removelast_firstn_len in L. lia.
  - apply Nat.ltb_ge in T. assert (n = List.length chunks) by lia. subst n.
    now rewrite firstn_all, append_nil_r.
Qed.

Section Outcome.

Variables timeoutMs maxBuffer : nat.

Lemma spawn_data_pending (data : list Runner.event) :
  forallb Runner.is_data data = true ->
  Runner.promise (Runner.spawnAsync timeoutMs maxBuffer data) = None
  /\ Runner.timedOut (Runner.spawnAsync timeoutMs maxBuffer data) = false
  /\ Runner.timer (Runner.spawnAsync timeoutMs maxBuffer data) = true.
Proof.
  intros H. pose proof (spawn_timer timeoutMs maxBuffer data) as T.
  rewrite H in T.
  destruct (spawn_settled_right timeoutMs maxBuffer data) as [I1 _].
  destruct (I1 T) as [P TO]. auto.
Qed.

Lemma stdout_is_feed (events : list Runner.event) :
  Runner.stdout (Runner.spawnAsync timeoutMs maxBuffer events)
  = fst (Runner.feed maxBuffer (Runner.stdout_chunks events)).
Proof. exact (f_equal fst (spawn_stdout timeoutMs maxBuffer events)). Qed.

Lemma stderr_is_feed (events : list Runner.event) :
  Runner.stderr (Runner.spawnAsync timeoutMs maxBuffer events)
  = fst (Runner.feed maxBuffer (Runner.stderr_chunks events)).
Proof. exact (f_equal fst (spawn_stderr timeoutMs maxBuffer events)). Qed.

Lemma outcome_timer (data more : list Runner.event) :
  forallb Runner.is_data data = true ->
  Runner.promise
    (Runner.spawnAsync timeoutMs maxBuffer (data ++ Runner.TimerFires :: more))
  = Some (Runner.Rejected (Runner.TimedOut timeoutMs)).
Proof.
  intros H. destruct (spawn_data_pending data H) as [P [TO T]].
  rewrite spawn_app. cbn [Runner.run fold_left]. apply run_keeps.
  cbn [Runner.handle]. rewrite T. cbn [Runner.promise]. now rewrite P.
Qed.

Lemma outcome_error (data more : list Runner.event) (error : string) :
  forallb Runner.is_data data = true ->
  Runner.promise
    (Runner.spawnAsync timeoutMs maxBuffer (data ++ Runner.OnError error :: more))
  = Some (Runner.Rejected (Runner.ChildError error)).
Proof.
  intros H. destruct (spawn_data_pending data H) as [P [TO T]].
  rewrite spawn_app. cbn [Runner.run fold_left]. apply run_keeps.
  cbn [Runner.handle Runner.promise]. now rewrite TO, P.
Qed.

Lemma outcome_close (data more : list Runner.event) (code : option Z) :
  forallb Runner.is_data data = true ->
  Runner.promise
    (Runner.spawnAsync timeoutMs maxBuffer (data ++ Runner.OnClose code :: more))
  = Some (match code with
          | Some 0%Z =>
              Runner.Resolved
                (fst (Runner.feed maxBuffer (Runner.stdout_chunks data)))
                (fst (Runner.feed maxBuffer (Runner.stderr_chunks data)))
          | _ =>
              Runner.Rejected
                (Runner.ExitedWith code
                   (fst (Runner.feed maxBuffer (Runner.stderr_chunks data))))
          end).
Proof.
  intros H. destruct (spawn_data_pending data H) as [P [TO T]].
  rewrite spawn_app. cbn [Runner.run fold_left]. apply run_keeps.
  cbn [Runner.handle Runner.promise]. rewrite TO, P, stdout_is_feed, stderr_is_feed.
  now destruct code as [[| |]|].
Qed.

(** [child.kill()] has been called exactly when the flag of the timer is set,
    and a promise rejected with the timeout error has the flag set. *)
Definition killed_right (st : Runner.state) : Prop :=
  Runner.killed st = Runner.timedOut st
  /\ (Runner.promise st = Some (Runner.Rejected (Runner.TimedOut timeoutMs)) ->
      Runner.timedOut st = true).

Lemma handle_killed_right (st : Runner.state) (e : Runner.event) :
  killed_right st -> killed_right (Runner.handle timeoutMs maxBuffer st e).
Proof.
  intros [K P]. unfold killed_right. destruct e; simpl.
  - destruct (Runner.on_data maxBuffer _ _ data). simpl. auto.
  - destruct (Runner.on_data maxBuffer _ _ data). simpl. auto.
  - destruct (Runner.timer st); simpl; auto.
  - split; [exact K|]. destruct (Runner.timedOut st); simpl; [auto|].
    destruct (Runner.promise st) as [o|]; simpl; [exact P | discriminate].
  - split; [exact K|]. destruct (Runner.timedOut st); simpl; [auto|].
    destruct (Runner.promise st) as [o|]; simpl;
      [destruct code as [[| |]|]; exact P | destruct code as [[| |]|]; discriminate].
Qed.

Lemma spawn_killed_right (events : list Runner.event) :
  killed_right (Runner.spawnAsync timeoutMs maxBuffer events).
Proof.
  induction events as [|e events IH] using rev_ind.
  - split; [reflexivity | discriminate].
  - rewrite spawn_snoc. now apply handle_killed_right.
Qed.

End Outcome.

(** X13: the first event that is no data decides the outcome, whatever
    comes later: the timer gives the timeout error, an [error] event gives
    that error, a close with code 0 resolves with the two buffers as the
    chunks before it left them, and a close with any other code, or with
    none, rejects with the code and the buffer of standard error. *)
Theorem first_event_decides :
  forall (timeoutMs maxBuffer : nat) (data more : list Runner.event),
    forallb Runner.is_data data = true ->
    Runner.promise
      (Runner.spawnAsync timeoutMs maxBuffer (data ++ Runner.TimerFires :: more))
    = Some (Runner.Rejected (Runner.TimedOut timeoutMs))
    /\ (forall error : string,
           Runner.promise
             (Runner.spawnAsync timeoutMs maxBuffer
                (data ++ Runner.OnError error :: more))
           = Some (Runner.Rejected (Runner.ChildError error)))
    /\ Runner.promise
         (Runner.spawnAsync timeoutMs maxBuffer
            (data ++ Runner.OnClose (Some 0%Z) :: more))
       = Some (Runner.Resolved
                 (fst (Runner.feed maxBuffer (Runner.stdout_chunks data)))
                 (fst (Runner.feed maxBuffer (Runner.stderr_chunks data))))
    /\ (forall code : option Z,
           code <> Some 0%Z ->
           Runner.promise
             (Runner.spawnAsync timeoutMs maxBuffer
                (data ++ Runner.OnClose code :: more))
           = Some (Runner.Rejected
                     (Runner.ExitedWith code
                        (fst (Runner.feed maxBuffer (Runner.stderr_chunks data)))))).
Proof.
  intros timeoutMs maxBuffer data more H.
  split; [now apply outcome_timer|].
  split; [intros error; now apply outcome_error|].
  split; [now rewrite outcome_close|].
  intros code Hc. rewrite outcome_close by exact H.
  destruct code as [[| |]|]; try reflexivity. now destruct Hc.
Qed.

(** A child that fails with code 2 after writing to both streams; the
    events after the close change nothing. *)
Lemma first_event_decides_witness :
  Runner.promise
    (Runner.spawnAsync 1000 64
       ([Runner.StdoutData "out"; Runner.StderrData "boom"]
          ++ Runner.OnClose (Some 2%Z) :: [Runner.TimerFires; Runner.OnError "late"]))
  = Some (Runner.Rejected (Runner.ExitedWith (Some 2%Z) "boom")).
Proof.
  apply (proj2 (proj2 (proj2 (first_event_decides 1000 64
           [Runner.StdoutData "out"; Runner.StderrData "boom"]
           [Runner.TimerFires; Runner.OnError "late"] eq_refl)))).
  discriminate.
Defined.

(** X14: the child is killed in exactly the calls that fail with the
    timeout error: never before the timer fires, never when the child
    closes or errors first, always when the timer fires first. *)
Theorem killed_iff_timed_out :
  forall (timeoutMs maxBuffer : nat) (events : list Runner.event),
    Runner.killed (Runner.spawnAsync timeoutMs maxBuffer events) = true <->
    Runner.promise (Runner.spawnAsync timeoutMs maxBuffer events)
    = Some (Runner.Rejected (Runner.TimedOut timeoutMs)).
Proof.
  intros timeoutMs maxBuffer events.
  destruct (spawn_killed_right timeoutMs maxBuffer events) as [K P].
  destruct (spawn_settled_right timeoutMs maxBuffer events) as [_ [_ I3]].
  rewrite K. split; auto.
Qed.

(** X15: a child that closes with code 0 before the timer, and whose output
    on each stream stays under the limit up to its last chunk, resolves with
    the whole of what it wrote on each stream, with no marker. *)
Theorem bounded_output_verbatim :
  forall (timeoutMs maxBuffer : nat) (data more : list Runner.event),
    forallb Runner.is_data data = true ->
    String.length (joined (removelast (Runner.stdout_chunks data))) < maxBuffer ->
    String.length (joined (removelast (Runner.stderr_chunks data))) < maxBuffer ->
    Runner.promise
      (Runner.spawnAsync timeoutMs maxBuffer
         (data ++ Runner.OnClose (Some 0%Z) :: more))
    = Some (Runner.Resolved (joined (Runner.stdout_chunks data))
              (joined (Runner.stderr_chunks data))).
Proof.
  intros timeoutMs maxBuffer data more H Hout Herr.
  rewrite outcome_close by exact H.
  now rewrite (feed_verbatim _ _ Hout), (feed_verbatim _ _ Herr).
Qed.

Lemma bounded_output_verbatim_witness :
  Runner.promise
    (Runner.spawnAsync 1000 4
       ([Runner.StdoutData "abc"; Runner.StderrData "w"; Runner.StdoutData "defgh"]
          ++ Runner.OnClose (Some 0%Z) :: []))
  = Some (Runner.Resolved "abcdefgh" "w").
Proof.
  apply (bounded_output_verbatim 1000 4
           [Runner.StdoutData "abc"; Runner.StderrData "w"; Runner.StdoutData "defgh"]
           [] eq_refl); simpl; lia.
Defined.

(** * Properties of [parseRegex] and of the map of [readConfigFile] *)

Definition no_slash (c : ascii) : bool := negb (Ascii.eqb c Config.slash).

Lemma lastIndexOf_none (c : ascii) (s : string) :
  Config.lastIndexOf c s = None <->
  all_chars (fun x => negb (Ascii.eqb x c)) s = true.
Proof.
  induction s as [|x s IH]; simpl; [tauto|].
  destruct (Config.lastIndexOf c s) as [i|].
  - split; [discriminate|]. intros H. apply andb_true_iff in H as [_ H].
    apply IH in H. discriminate.
  - destruct (Ascii.eqb x c); simpl; [split; discriminate|].
    split; intros _; [now apply IH | reflexivity].
Qed.

Lemma lastIndexOf_app (c : ascii) (p f : string) :
  Config.lastIndexOf c f = None ->
  Config.lastIndexOf c (p ++ String c f) = Some (String.length p).
Proof.
  intros H. induction p as [|x p IH]; simpl.
  - now rewrite H, Ascii.eqb_refl.
  - now rewrite IH.
Qed.

Lemma lastIndexOf_split (c : ascii) (s : string) (i : nat) :
  Config.lastIndexOf c s = Some i ->
  exists p f, s = p ++ String c f /\ String.length p = i
              /\ Config.lastIndexOf c f = None.
Proof.
  revert i. induction s as [|x s IH]; intros i H; [discriminate|].
  simpl in H. destruct (Config.lastIndexOf c s) as [j|] eqn:E.
  - injection H as <-. destruct (IH j eq_refl) as [p [f [-> [L N]]]].
    exists (String x p), f. simpl. auto.
  - destruct (Ascii.eqb_spec x c) as [->|]; [|discriminate].
    injection H as <-. exists EmptyString, s. auto.
Qed.

Lemma substring_prefix (p r : string) :
  String.substring 0 (String.length p) (p ++ r) = p.
Proof. induction p as [|x p IH]; simpl; [now destruct r | now rewrite IH]. Qed.

Lemma substring_skip (p r : string) (n m : nat) :
  String.substring (String.length p + n) m (p ++ r) = String.substring n m r.
Proof. induction p as [|x p IH]; simpl; [reflexivity | exact IH]. Qed.

Lemma substring_all (f : string) :
  String.substring 0 (String.length f) f = f.
Proof.
  pose proof (substring_prefix f EmptyString) as H. now rewrite append_nil_r in H.
Qed.

Section ParseRegexFacts.

Variable R : Type.
Variable newRegExp : string -> string -> option R.

(** What [parseRegex] does with a text between its first slash and its
    last: the two parts go to the constructor. *)
Lemma parseRegex_slashes (p f : string) :
  Config.lastIndexOf Config.slash f = None ->
  Config.parseRegex newRegExp (Config.Str (String Config.slash (p ++ String Config.slash f)))
  = match newRegExp p f with
    | Some r => Config.Re r
    | None => Config.Str (String Config.slash (p ++ String Config.slash f))
    end.
Proof.
  intros H. unfold Config.parseRegex.
  pose proof (lastIndexOf_app Config.slash (String Config.slash p) f H) as L.
  cbn [append String.length] in L. rewrite L.
  cbn [Config.startsWith]. rewrite Ascii.eqb_refl. cbn [andb Nat.ltb Nat.leb].
  assert (P : Config.substring_between 1 (S (String.length p))
                (String Config.slash (p ++ String Config.slash f)) = p).
  { unfold Config.substring_between. cbn [Nat.sub String.substring].
    rewrite Nat.sub_0_r. apply substring_prefix. }
  assert (F : Config.substring_from (S (String.length p) + 1)
                (String Config.slash (p ++ String Config.slash f)) = f).
  { unfold Config.substring_from. cbn [String.length].
    rewrite length_append. cbn [String.length].
    replace (S (String.length p + S (String.length f)) - (S (String.length p) + 1))
      with (String.length f) by lia.
    replace (S (String.length p) + 1) with (S (String.length p + 1)) by lia.
    cbn [String.substring]. rewrite substring_skip. cbn [String.substring].
    apply substring_all. }
  rewrite P, F. reflexivity.
Qed.

Lemma parseRegex_shape (a : string) :
  (exists p f, a = String Config.slash (p ++ String Config.slash f)
               /\ all_chars no_slash f = true)
  \/ Config.parseRegex newRegExp (Config.Str a) = Config.Str a.
Proof.
  unfold Config.parseRegex.
  destruct a as [|x a]; [right; reflexivity|]. cbn [Config.startsWith].
  destruct (Ascii.eqb_spec x Config.slash) as [->|]; [|right; reflexivity].
  destruct (Config.lastIndexOf Config.slash (String Config.slash a)) as [i|] eqn:E;
    [|right; reflexivity].
  destruct i as [|i]; [right; reflexivity|]. left.
  destruct (lastIndexOf_split _ _ _ E) as [p [f [Ea [L N]]]].
  destruct p as [|y p]; [discriminate|]. simpl in Ea. injection Ea as <- ->.
  exists p, f. split; [reflexivity | now apply lastIndexOf_none].
Qed.

End ParseRegexFacts.

(** X16: [parseRegex] reads the notation slash, pattern, slash, flags: for a
    text that starts with a slash and has another one, what lies between the
    first and the last slash and what follows the last slash are given to
    the [RegExp] constructor, and the text is kept as a literal when the
    constructor refuses them; every other text, a lone slash included, and
    every value that is a [RegExp] already, is returned as it is. *)
Theorem parseRegex_slash_notation :
  forall (R : Type) (newRegExp : string -> string -> option R),
    (forall p f : string,
        all_chars no_slash f = true ->
        Config.parseRegex newRegExp
          (Config.Str (String Config.slash (p ++ String Config.slash f)))
        = match newRegExp p f with
          | Some r => Config.Re r
          | None => Config.Str (String Config.slash (p ++ String Config.slash f))
          end)
    /\ (forall a : string,
           (forall p f, a <> String Config.slash (p ++ String Config.slash f)) ->
           Config.parseRegex newRegExp (Config.Str a) = Config.Str a)
    /\ (forall r : R, Config.parseRegex newRegExp (Config.Re r) = Config.Re r).
Proof.
  intros R newRegExp. split; [|split].
  - intros p f H. apply parseRegex_slashes. now apply lastIndexOf_none.
  - intros a H. destruct (parseRegex_shape R newRegExp a) as [[p [f [E _]]]|E];
      [now destruct (H p f) | exact E].
  - reflexivity.
Qed.

(** With a constructor that knows one pattern: a path with a slash at its end
    is read as a pattern, a path with none at its end has its last part
    taken for flags and stays a literal. *)
Lemma parseRegex_slash_notation_witness :
  Config.parseRegex
    (fun p f => if String.eqb p "tmp" && String.eqb f EmptyString
                then Some (RegExp.regexp re_rm false false) else None)
    (Config.Str "/tmp/") = Config.Re (RegExp.regexp re_rm false false)
  /\ Config.parseRegex
       (fun p f => if String.eqb f EmptyString
                   then Some (RegExp.regexp re_rm false false) else None)
       (Config.Str "/usr/bin") = Config.Str "/usr/bin".
Proof.
  split.
  - rewrite (proj1 (parseRegex_slash_notation _ _) "tmp" EmptyString); reflexivity.
  - rewrite (proj1 (parseRegex_slash_notation _ _) "usr" "bin"); reflexivity.
Defined.

(** A field of a configuration entry none of whose texts starts with a
    slash. *)
Definition slash_free (field : option (list string)) : Prop :=
  match field with
  | Some l => Forall (fun a => Config.startsWith Config.slash a = false) l
  | None => True
  end.

Section ReadConfigFacts.

Variable newRegExp : string -> string -> option RegExp.object.

Lemma parse_literal (a : string) :
  Config.startsWith Config.slash a = false ->
  Config.to_matcher (Config.parseRegex newRegExp (Config.Str a)) = Literal a.
Proof. intros H. unfold Config.parseRegex. now rewrite H. Qed.

Lemma parse_all_slash_free (field : option (list string)) :
  slash_free field ->
  Config.parse_all newRegExp field = option_map literals field.
Proof.
  destruct field as [l|]; [|reflexivity]. unfold Config.parse_all, slash_free.
  cbn [option_map]. intros H. f_equal.
  induction H as [|a l Ha _ IH]; [reflexivity|]. cbn [map literals].
  rewrite (parse_literal a Ha). f_equal. exact IH.
Qed.

Lemma convert_all_find (before after : list Config.RawCommand)
  (rc : Config.RawCommand) (baseCommand : string) :
  Forall (fun c => Config.raw_command c <> baseCommand) before ->
  Config.raw_command rc = baseCommand ->
  find (named baseCommand) (Config.convert_all newRegExp (before ++ rc :: after))
  = Some (Config.convert newRegExp rc).
Proof.
  intros Hb Hc. unfold Config.convert_all. rewrite map_app. cbn [map].
  apply find_first; [|exact Hc].
  induction Hb as [|c before Hne _ IH]; constructor; assumption.
Qed.

Lemma option_literals_flagless (field : option (list string)) :
  flagless_field (option_map literals field) = true.
Proof. destruct field as [l|]; [apply literals_flagless | reflexivity]. Qed.

Lemma convert_flagless (rc : Config.RawCommand) :
  slash_free (Config.raw_allowedArgs rc) ->
  slash_free (Config.raw_deniedArgs rc) ->
  flagless_record (Config.convert newRegExp rc) = true.
Proof.
  intros Ha Hd. unfold flagless_record. cbn [Config.convert allowedArgs deniedArgs].
  rewrite (parse_all_slash_free _ Ha), (parse_all_slash_free _ Hd).
  now rewrite !option_literals_flagless.
Qed.

Lemma convert_passes (rc : Config.RawCommand) (arg : string) :
  slash_free (Config.raw_allowedArgs rc) ->
  slash_free (Config.raw_deniedArgs rc) ->
  passes (Config.convert newRegExp rc) arg <->
  (forall denied, Config.raw_deniedArgs rc = Some denied -> ~ In arg denied)
  /\ (forall allowed, Config.raw_allowedArgs rc = Some allowed -> In arg allowed).
Proof.
  intros Ha Hd. unfold passes, isDenied, isAllowedArg.
  cbn [Config.convert allowedArgs deniedArgs].
  rewrite (parse_all_slash_free _ Ha), (parse_all_slash_free _ Hd).
  destruct (Config.raw_deniedArgs rc) as [denied|];
    destruct (Config.raw_allowedArgs rc) as [allowed|]; cbn [option_map];
    rewrite ?(some_matches_flagless arg _ (literals_flagless denied)),
            ?(some_matches_flagless arg _ (literals_flagless allowed)); cbn [fst].
  - rewrite <- not_true_iff_false, !matches_literals. split.
    + intros [H1 H2]. split; intros l E; injection E as <-; assumption.
    + intros [H1 H2]. split; [now apply H1 | now apply H2].
  - rewrite <- not_true_iff_false, matches_literals. split.
    + intros [H1 _]. split; [intros l E; injection E as <-; assumption | discriminate].
    + intros [H1 _]. split; [now apply H1 | reflexivity].
  - rewrite matches_literals. split.
    + intros [_ H2]. split; [discriminate | intros l E; injection E as <-; assumption].
    + intros [_ H2]. split; [reflexivity | now apply H2].
  - split; [intros _; split; discriminate | auto].
Qed.

End ReadConfigFacts.

(** X17: a configuration entry whose argument texts start with no slash is a
    list of literals: after the map of [readConfigFile] a call of that program
    is accepted exactly when each argument is, to the letter, none of the
    denied texts of its first entry and, when the entry has allowed texts,
    one of them. *)
Theorem literal_configuration :
  forall (newRegExp : string -> string -> option RegExp.object)
         (before after : list Config.RawCommand) (rc : Config.RawCommand)
         (baseCommand : string) (args : list string),
    Forall (fun c => Config.raw_command c <> baseCommand) before ->
    Config.raw_command rc = baseCommand ->
    slash_free (Config.raw_allowedArgs rc) ->
    slash_free (Config.raw_deniedArgs rc) ->
    (fst (validateCommand (Config.convert_all newRegExp (before ++ rc :: after))
            baseCommand args) = None <->
     Forall (fun arg =>
               (forall denied, Config.raw_deniedArgs rc = Some denied -> ~ In arg denied)
               /\ (forall allowed, Config.raw_allowedArgs rc = Some allowed ->
                                   In arg allowed)) args).
Proof.
  intros newRegExp before after rc baseCommand args Hb Hc Ha Hd.
  rewrite (validateCommand_found_none_iff _ _ _ _
             (convert_all_find newRegExp _ _ _ _ Hb Hc)
             (convert_flagless newRegExp rc Ha Hd)).
  rewrite !Forall_forall.
  split; intros H a Hin; apply (convert_passes newRegExp rc a Ha Hd); now apply H.
Qed.

Lemma literal_configuration_witness :
  fst (validateCommand
         (Config.convert_all (fun _ _ => None)
            ([{| Config.raw_command := "ls"; Config.raw_allowedArgs := None;
                 Config.raw_deniedArgs := None |}]
               ++ {| Config.raw_command := "npm";
                     Config.raw_allowedArgs := Some ["install"; "run"; "test"];
                     Config.raw_deniedArgs := Some ["publish"] |} :: []))
         "npm" ["run"; "test"]) = None.
Proof.
  apply literal_configuration.
  - repeat constructor. discriminate.
  - reflexivity.
  - repeat constructor.
  - repeat constructor.
  - apply Forall_cons; [split; [intros d E; injection E as <-; simpl; intuition discriminate
                               | intros l E; injection E as <-; simpl; auto]|].
    apply Forall_cons; [split; [intros d E; injection E as <-; simpl; intuition discriminate
                               | intros l E; injection E as <-; simpl; auto]|].
    apply Forall_nil.
Defined.

(** * Properties of the tool handler *)

Lemma parseArgs_nonempty_tokens (commandStr : string) (tokens : list string) :
  parseArgs commandStr = Ok tokens -> all_nonempty tokens.
Proof.
  unfold parseArgs, finish.
  pose proof (loop_args_nonempty commandStr init (Forall_nil _)) as H.
  destruct (quote (loop init commandStr)); [discriminate|].
  intros E. injection E as <-.
  destruct (truthy (current (loop init commandStr))) eqn:T; [|exact H].
  now apply all_nonempty_push.
Qed.

Lemma validateCommand_none_listed (allowedCommands : list AllowedCommand)
  (baseCommand : string) (args : list string) :
  fst (validateCommand allowedCommands baseCommand args) = None ->
  exists c, In c allowedCommands /\ command c = baseCommand.
Proof.
  intros H. apply validateCommand_none_found in H as [cfg F].
  apply find_some in F as [Hin N]. exists cfg. split; [exact Hin|].
  now apply String.eqb_eq.
Qed.

(** What the handler does, from the tokens and the value of
    [validateCommand]. *)
Lemma prepare_fst (allowedCommands : list AllowedCommand) (commandStr : string) :
  fst (Handler.prepare allowedCommands commandStr) =
  match parseArgs commandStr with
  | Throw message =>
      Handler.Respond
        {| Handler.text := "Execution failed:" ++ Handler.nl ++ message;
           Handler.isError := true |}
  | Ok [] =>
      Handler.Respond
        {| Handler.text := "Error: Command is empty."; Handler.isError := true |}
  | Ok (cmd :: cmdArgs) =>
      match fst (validateCommand allowedCommands cmd cmdArgs) with
      | Some message =>
          Handler.Respond
            {| Handler.text := "Error: Command validation failed. " ++ message;
               Handler.isError := true |}
      | None => Handler.Spawn cmd cmdArgs
      end
  end.
Proof.
  unfold Handler.prepare.
  destruct (parseArgs commandStr) as [[|cmd cmdArgs]|message]; try reflexivity.
  now destruct (validateCommand allowedCommands cmd cmdArgs) as [[message|] l].
Qed.

(** X18: the handler calls [spawnAsync] with a program and arguments exactly
    when they are the tokens of the command line and [validateCommand]
    returned null for them; the program then has a record in the whitelist,
    and neither it nor any argument is the empty text. *)
Theorem prepare_spawns_validated :
  forall (allowedCommands : list AllowedCommand) (commandStr cmd : string)
         (cmdArgs : list string),
    (fst (Handler.prepare allowedCommands commandStr) = Handler.Spawn cmd cmdArgs <->
     parseArgs commandStr = Ok (cmd :: cmdArgs)
     /\ fst (validateCommand allowedCommands cmd cmdArgs) = None)
    /\ (fst (Handler.prepare allowedCommands commandStr) = Handler.Spawn cmd cmdArgs ->
        (exists c, In c allowedCommands /\ command c = cmd)
        /\ all_nonempty (cmd :: cmdArgs)).
Proof.
  intros allowedCommands commandStr cmd cmdArgs.
  assert (I : fst (Handler.prepare allowedCommands commandStr)
              = Handler.Spawn cmd cmdArgs ->
              parseArgs commandStr = Ok (cmd :: cmdArgs)
              /\ fst (validateCommand allowedCommands cmd cmdArgs) = None).
  { rewrite prepare_fst.
    destruct (parseArgs commandStr) as [[|c l]|message]; try discriminate.
    destruct (fst (validateCommand allowedCommands c l)) eqn:V; [discriminate|].
    intros E. injection E as <- <-. auto. }
  split; [split; [exact I|]|].
  - intros [P V]. rewrite prepare_fst. now rewrite P, V.
  - intros E. destruct (I E) as [P V]. split.
    + now apply (validateCommand_none_listed _ _ cmdArgs).
    + now apply (parseArgs_nonempty_tokens commandStr).
Qed.

Lemma prepare_spawns_validated_witness :
  (exists c, In c DEFAULT_ALLOWED_COMMANDS /\ command c = "git")
  /\ all_nonempty ("git" :: ["commit"; "-m"; "'fix'"]).
Proof.
  apply (proj2 (prepare_spawns_validated DEFAULT_ALLOWED_COMMANDS
                  ("git commit -m " ++ in_dquotes "'fix'") "git"
                  ["commit"; "-m"; "'fix'"])).
  vm_compute. reflexivity.
Defined.

(** X19: a command line that leaves a quote open is answered in the catch of
    the handler, as a failed execution with the unclosed-quote message, and a
    command line of white space only, the empty one included, is answered as
    an empty command; in neither case is the whitelist consulted or anything
    spawned. *)
Theorem prepare_refuses_early :
  forall (allowedCommands : list AllowedCommand) (commandStr : string),
    (forall q : ascii,
        quote_open q commandStr ->
        Handler.prepare allowedCommands commandStr =
        (Handler.Respond
           {| Handler.text := "Execution failed:" ++ String newline
                                ("Syntax error: Unclosed quote " ++ String q EmptyString);
              Handler.isError := true |},
         allowedCommands))
    /\ (all_chars is_space commandStr = true ->
        Handler.prepare allowedCommands commandStr =
        (Handler.Respond
           {| Handler.text := "Error: Command is empty."; Handler.isError := true |},
         allowedCommands)).
Proof.
  intros allowedCommands commandStr. split.
  - intros q H. unfold Handler.prepare.
    rewrite parseArgs_cases, (open_final_quote q commandStr H). reflexivity.
  - intros H. unfold Handler.prepare, parseArgs.
    now rewrite (loop_leading_space commandStr H).
Qed.

Lemma prepare_refuses_early_witness :
  Handler.prepare DEFAULT_ALLOWED_COMMANDS "ls 'a"
  = (Handler.Respond
       {| Handler.text := "Execution failed:" ++ String newline
                            "Syntax error: Unclosed quote '";
          Handler.isError := true |},
     DEFAULT_ALLOWED_COMMANDS)
  /\ Handler.prepare DEFAULT_ALLOWED_COMMANDS "  "
     = (Handler.Respond
          {| Handler.text := "Error: Command is empty."; Handler.isError := true |},
        DEFAULT_ALLOWED_COMMANDS).
Proof.
  split.
  - apply (proj1 (prepare_refuses_early DEFAULT_ALLOWED_COMMANDS "ls 'a") squote).
    do 3 (apply open_char; [discriminate ..|]).
    apply open_here; [right; reflexivity|].
    apply body_char; [discriminate ..|]. apply body_end.
  - apply (proj2 (prepare_refuses_early DEFAULT_ALLOWED_COMMANDS "  ")). reflexivity.
Defined.

(** X20: for a program and arguments made of plain characters, written one
    after the other with single spaces, the handler decides as
    [validateCommand] does on that program and those arguments: it spawns
    them when it returns null and answers with its message otherwise. *)
Theorem prepare_plain_command :
  forall (allowedCommands : list AllowedCommand) (cmd : string)
         (cmdArgs : list string),
    Forall plain_word (cmd :: cmdArgs) ->
    fst (Handler.prepare allowedCommands (String.concat " " (cmd :: cmdArgs))) =
    match fst (validateCommand allowedCommands cmd cmdArgs) with
    | Some validationError =>
        Handler.Respond
          {| Handler.text := "Error: Command validation failed. " ++ validationError;
             Handler.isError := true |}
    | None => Handler.Spawn cmd cmdArgs
    end.
Proof.
  intros allowedCommands cmd cmdArgs H. rewrite prepare_fst.
  now rewrite (parseArgs_join_space _ H).
Qed.

Lemma prepare_plain_command_witness :
  fst (Handler.prepare DEFAULT_ALLOWED_COMMANDS
         (String.concat " " ["npm"; "install"; "|"; "bash"]))
  = Handler.Respond
      {| Handler.text := "Error: Command validation failed. "
                           ++ "Argument '|' for command 'npm' is not allowed.";
         Handler.isError := true |}.
Proof.
  rewrite (prepare_plain_command DEFAULT_ALLOWED_COMMANDS "npm" ["install"; "|"; "bash"]).
  - vm_compute. reflexivity.
  - repeat constructor; discriminate.
Defined.

(** * The programs of the compiled-in table *)

Lemma find_not_listed (allowedCommands : list AllowedCommand) (baseCommand : string) :
  ~ In baseCommand (map command allowedCommands) ->
  find (named baseCommand) allowedCommands = None.
Proof.
  intros H. apply find_unlisted. apply Forall_forall. intros c Hc E.
  apply H. rewrite <- E. now apply in_map.
Qed.

(** X21: the compiled-in table rejects, as not whitelisted, every name but
    the twenty-six it lists; the twenty-two of them whose record carries no
    matcher, among them [find], [cp] and [curl], are accepted with any
    arguments whatever. *)
Theorem default_programs :
  forall (baseCommand : string) (args : list string),
    (~ In baseCommand
         ["ls"; "cat"; "echo"; "pwd"; "whoami"; "date"; "grep"; "find"; "head";
          "tail"; "wc"; "du"; "df"; "which"; "mkdir"; "touch"; "cp";
          "npm"; "yarn"; "pnpm"; "tsc"; "git";
          "pod"; "xcodebuild"; "fastlane"; "curl"] ->
     fst (validateCommand DEFAULT_ALLOWED_COMMANDS baseCommand args)
     = Some ("Command '" ++ baseCommand ++ "' is not in the allowed whitelist."))
    /\ (In baseCommand
          ["ls"; "cat"; "echo"; "pwd"; "whoami"; "date"; "grep"; "find"; "head";
           "tail"; "wc"; "du"; "df"; "which"; "mkdir"; "touch"; "cp";
           "tsc"; "pod"; "xcodebuild"; "fastlane"; "curl"] ->
        fst (validateCommand DEFAULT_ALLOWED_COMMANDS baseCommand args) = None).
Proof.
  intros baseCommand args. split.
  - intros H. unfold validateCommand. fold (named baseCommand).
    now rewrite (find_not_listed DEFAULT_ALLOWED_COMMANDS baseCommand H).
  - intros H. simpl in H.
    repeat (destruct H as [<-|H]; [reflexivity|]). contradiction.
Qed.

Lemma default_programs_witness :
  fst (validateCommand DEFAULT_ALLOWED_COMMANDS "npx" ["create-next-app@latest"])
    = Some "Command 'npx' is not in the allowed whitelist."
  /\ fst (validateCommand DEFAULT_ALLOWED_COMMANDS "curl" ["-o"; "/etc/passwd"; "|"])
     = None.
Proof.
  split.
  - apply (proj1 (default_programs "npx" ["create-next-app@latest"])).
    simpl. intuition discriminate.
  - apply (proj2 (default_programs "curl" ["-o"; "/etc/passwd"; "|"])).
    simpl. tauto.
Defined.
